(** * Protocol diagram generator: layout engine

    A shallow embedding of [scripts/gen-protocol-diagrams.py]: the row
    packer and the two row renderers of [generate_diagram], followed by the
    properties of the layout that the specification states. *)

From Stdlib Require Import String Ascii.
From stdpp Require Import base numbers list.

Local Open Scope Z_scope.

(** ** The fragment of Python the script relies on *)

Module Py.

(** A Python [str] is a sequence of Unicode code points; [len] counts code
    points, so the box-drawing characters count for one column each. *)
Definition char : Type := N.
Abbreviation str := (list char).

(** A literal of the script without characters beyond ASCII. *)
Definition of_ascii (s : String.string) : str :=
  Ascii.N_of_ascii <$> String.list_ascii_of_string s.
Arguments of_ascii s%_string.

Definition len {A} (l : list A) : Z := Z.of_nat (length l).

(** Truthiness of a string: the empty string is false. *)
Definition truthy (s : str) : bool :=
  match s with [] => false | _ :: _ => true end.

(** The only exception the layout engine can raise on input of the shape
    it expects (every mandatory key present). *)
Inductive exn : Type := IndexError.

Inductive result (A : Type) : Type :=
| Ok (a : A)
| Raise (e : exn).
Arguments Ok {A} a.
Arguments Raise {A} e.

#[export] Instance result_ret : MRet result := @Ok.
#[export] Instance result_bind : MBind result :=
  λ A B k m, match m with Ok a => k a | Raise e => Raise e end.
#[export] Instance result_fmap : FMap result :=
  λ A B f m, match m with Ok a => Ok (f a) | Raise e => Raise e end.

(** [l[i] = v] on a Python list: an index in [-len, 0) counts from the
    end, an index outside [-len, len) raises IndexError. *)
Definition setitem {A} (l : list A) (i : Z) (v : A) : result (list A) :=
  if bool_decide (0 ≤ i < len l) then Ok (<[Z.to_nat i := v]> l)
  else if bool_decide (- len l ≤ i < 0) then Ok (<[Z.to_nat (i + len l) := v]> l)
  else Raise IndexError.

(** [for x in xs: body] over a state that the body updates or raises. *)
Fixpoint for_in {A S} (xs : list A) (body : A → S → result S) (s : S) : result S :=
  match xs with
  | [] => Ok s
  | x :: xs' => s' ← body x s; for_in xs' body s'
  end.

(** [for i, x in enumerate(xs): body], counting from [i]. *)
Fixpoint for_enumerate {A S} (i : Z) (xs : list A) (body : Z → A → S → result S)
    (s : S) : result S :=
  match xs with
  | [] => Ok s
  | x :: xs' => s' ← body i x s; for_enumerate (i + 1) xs' body s'
  end.

(** [sep.join(lines)] *)
Fixpoint join (sep : str) (lines : list str) : str :=
  match lines with
  | [] => []
  | [l] => l
  | l :: ls => l ++ sep ++ join sep ls
  end.

End Py.

Import Py.

(** ** Data model *)

(** One entry of the protocol's ['fields'] list. ['name'] and ['bits'] are
    mandatory keys; ['description'] is read with [.get]. *)
Record Field : Type := mkField {
  f_name : str;
  f_bits : Z;
  f_description : option str;
}.

(** The decoded protocol description. ['fields'] is mandatory, the other
    keys are tested with [in]. *)
Record Protocol : Type := mkProtocol {
  p_name : option str;
  p_source : option str;
  p_total_note : option str;
  p_fields : list Field;
}.

(** [(field, start_bit, end_bit)] *)
Definition row_entry : Type := Field * Z * Z.

Definition BOX_H : char := 0x2500%N.   (* ─ *)
Definition BOX_V : char := 0x2502%N.   (* │ *)
Definition BOX_DR : char := 0x250C%N.  (* ┌ *)
Definition BOX_DL : char := 0x2510%N.  (* ┐ *)
Definition BOX_UR : char := 0x2514%N.  (* └ *)
Definition BOX_UL : char := 0x2518%N.  (* ┘ *)
Definition BOX_VR : char := 0x251C%N.  (* ├ *)
Definition BOX_VL : char := 0x2524%N.  (* ┤ *)
Definition BOX_DH : char := 0x252C%N.  (* ┬ *)
Definition SPACE : char := 32%N.
Definition NEWLINE : char := 10%N.

(** [field.get('description')] as a condition, and
    [field.get('description', '')]. *)
Definition has_description (f : Field) : bool :=
  match f_description f with Some d => truthy d | None => false end.

Definition description_or_empty (f : Field) : str :=
  default [] (f_description f).

(** ** Character-column arithmetic of [_render_row] *)

Definition char_start (start : Z) : Z := start * 2 + 1.
Definition char_end (end_ : Z) : Z := end_ * 2 + 2.
Definition span_width (start end_ : Z) : Z := char_end end_ - char_start start.

(** [pad = width - len(text); left_pad = pad // 2] *)
Definition left_pad (width : Z) (text : str) : Z := (width - len text) / 2.

(** [['│'] + [' '] * 63 + ['│']] *)
Definition blank_line : str := [BOX_V] ++ replicate 63 SPACE ++ [BOX_V].

(** ** [_render_wide_field] *)

(** The loop that writes a centered text into a wide block's line. *)
Definition write_wide (text : str) (line : str) : result str :=
  let left_pad := left_pad 63 text in
  for_enumerate 0 text (λ i ch line,
    let pos := left_pad + i + 1 in
    if bool_decide (pos < 64) then setitem line pos ch else Ok line) line.

Definition _render_wide_field (field : Field) (is_first : bool) : result (list str) :=
  let lines := [] in
  let lines :=
    if is_first then lines ++ [[BOX_DR] ++ replicate 63 BOX_H ++ [BOX_DL]]
    else lines ++ [[BOX_VR] ++ replicate 63 BOX_H ++ [BOX_VL]] in
  name_line ← write_wide (f_name field) blank_line;
  let lines := lines ++ [name_line] in
  if has_description field then
    desc_line ← write_wide (description_or_empty field) blank_line;
    Ok (lines ++ [desc_line])
  else Ok lines.

(** ** [_render_row] *)

(** The inner loop over [row_fields[:-1]] that sets [is_boundary]. *)
Definition is_boundary (row_fields : list row_entry) (i : Z) : bool :=
  existsb (λ '(_, _, end_), bool_decide (i = end_ * 2 + 2)) (removelast row_fields).

Definition row_border (row_fields : list row_entry) (is_first : bool) : str :=
  [if is_first then BOX_DR else BOX_VR]
  ++ ((λ i, if is_boundary row_fields i then BOX_DH else BOX_H) <$> seqZ 0 63)
  ++ [if is_first then BOX_DL else BOX_VL].

(** The loop that writes a text centered in the character span of the bits
    [start .. end_]:
    [char_start = start * 2 + 1; char_end = end * 2 + 2;
     width = char_end - char_start; pad = width - len(text);
     left_pad = pad // 2], then the loop over [enumerate(text)]. *)
Definition write_span (text : str) (start end_ : Z) (line : str) : result str :=
  let char_start := char_start start in
  let char_end := char_end end_ in
  let width := span_width start end_ in
  let left_pad := left_pad width text in
  for_enumerate 0 text (λ i ch line,
    let pos := char_start + left_pad + i in
    if bool_decide (pos < char_end) && bool_decide (pos < 64)
    then setitem line pos ch else Ok line) line.

(** Body of the loop that builds the field name line. *)
Definition name_entry (e : row_entry) (name_line : str) : result str :=
  let '(field, start, end_) := e in
  let char_end := char_end end_ in
  name_line ← write_span (f_name field) start end_ name_line;
  if bool_decide (end_ < 31) && bool_decide (char_end < 64)
  then setitem name_line char_end BOX_V
  else Ok name_line.

(** Body of the loop that builds the description line. *)
Definition desc_entry (e : row_entry) (desc_line : str) : result str :=
  let '(field, start, end_) := e in
  let desc := description_or_empty field in
  desc_line ←
    (if truthy desc
     then write_span desc start end_ desc_line
     else Ok desc_line);
  if bool_decide (end_ < 31) then
    let sep_pos := end_ * 2 + 3 in
    if bool_decide (sep_pos < 64) then setitem desc_line sep_pos BOX_V
    else Ok desc_line
  else Ok desc_line.

(** [any(f.get('description') for f, _, _ in row_fields)] *)
Definition any_description (row_fields : list row_entry) : bool :=
  existsb (λ '(f, _, _), has_description f) row_fields.

Definition _render_row (row_fields : list row_entry) (is_first : bool) : result (list str) :=
  let border := row_border row_fields is_first in
  name_line ← for_in row_fields name_entry blank_line;
  let has_desc := any_description row_fields in
  let lines := [border; name_line] in
  if has_desc then
    desc_line ← for_in row_fields desc_entry blank_line;
    Ok (lines ++ [desc_line])
  else Ok lines.

(** ** [generate_diagram] *)

Definition ruler_tens : str :=
  of_ascii " 0                   1                   2                   3".
Definition ruler_units : str :=
  of_ascii " 0 1 2 3 4 5 6 7 8 9 0 1 2 3 4 5 6 7 8 9 0 1 2 3 4 5 6 7 8 9 0 1".
Definition closing_border : str := [BOX_UR] ++ replicate 63 BOX_H ++ [BOX_UL].

(** The variables the loop over the fields updates. *)
Record loop_state : Type := mkState {
  lines : list str;
  bit_pos : Z;
  row_fields : list row_entry;
  first_row : bool;
}.

(** [lines.extend(_render_row(row_fields, is_first=first_row));
     first_row = False; row_fields = []] *)
Definition render_pending (st : loop_state) : result loop_state :=
  rendered ← _render_row (row_fields st) (first_row st);
  Ok (mkState (lines st ++ rendered) (bit_pos st) [] false).

(** The same three statements under [if row_fields:]. *)
Definition render_if_pending (st : loop_state) : result loop_state :=
  match row_fields st with
  | [] => Ok st
  | _ :: _ => render_pending st
  end.

(** [((bit_pos + 31) // 32) * 32] *)
Definition next_row (bit_pos : Z) : Z := ((bit_pos + 31) / 32) * 32.

Definition loop_body (field : Field) (st : loop_state) : result loop_state :=
  let field_bits := f_bits field in
  let start_bit := bit_pos st `mod` 32 in
  if bool_decide (field_bits > 32) then
    st ← render_if_pending st;
    let st :=
      if bool_decide (start_bit ≠ 0)
      then mkState (lines st) (next_row (bit_pos st)) (row_fields st) (first_row st)
      else st in
    rendered ← _render_wide_field field (first_row st);
    Ok (mkState (lines st ++ rendered) (bit_pos st + field_bits) (row_fields st) false)
  else
    '(st, start_bit) ←
      (if bool_decide (start_bit + field_bits > 32) then
         st ← render_if_pending st;
         Ok (mkState (lines st) (next_row (bit_pos st)) (row_fields st) (first_row st), 0)
       else Ok (st, start_bit));
    let end_bit := start_bit + field_bits - 1 in
    let st := mkState (lines st) (bit_pos st + field_bits)
                (row_fields st ++ [(field, start_bit, end_bit)]) (first_row st) in
    if bool_decide (bit_pos st `mod` 32 = 0) then render_pending st else Ok st.

Definition title_lines (protocol : Protocol) : list str :=
  match p_name protocol with
  | Some name =>
      let title := name in
      let title :=
        match p_source protocol with
        | Some source => title ++ of_ascii " (" ++ source ++ of_ascii ")"
        | None => title
        end in
      [title; []]
  | None => []
  end.

Definition note_lines (protocol : Protocol) : list str :=
  match p_total_note protocol with
  | Some note => [[]; note]
  | None => []
  end.

(** The list [lines] just before it is joined. *)
Definition diagram_lines (protocol : Protocol) : result (list str) :=
  let header := title_lines protocol ++ [ruler_tens] ++ [ruler_units] in
  st ← for_in (p_fields protocol) loop_body (mkState header 0 [] true);
  st ← render_if_pending st;
  Ok ((lines st ++ [closing_border]) ++ note_lines protocol).

Definition generate_diagram (protocol : Protocol) : result str :=
  join [NEWLINE] <$> diagram_lines protocol.

(** ** The row packer

    The loop of [generate_diagram] decides the rows and renders them in one
    pass. Its packing decisions do not depend on the rendered text, so the
    packer is the same loop with every call to a renderer recorded, with its
    arguments, instead of performed ([diagram_lines_row_packer] below
    shows that rendering the recorded calls in order gives back
    [generate_diagram]). *)

Inductive block : Type :=
| RowGroup (row_fields : list row_entry) (is_first : bool)
| WideBlock (field : Field) (is_first : bool).

Record pack_state : Type := mkPack {
  blocks : list block;
  cursor : Z;
  pending : list row_entry;
  first : bool;
}.

Definition pack_pending (ps : pack_state) : pack_state :=
  mkPack (blocks ps ++ [RowGroup (pending ps) (first ps)]) (cursor ps) [] false.

Definition pack_if_pending (ps : pack_state) : pack_state :=
  match pending ps with
  | [] => ps
  | _ :: _ => pack_pending ps
  end.

Definition pack_body (field : Field) (ps : pack_state) : pack_state :=
  let field_bits := f_bits field in
  let start_bit := cursor ps `mod` 32 in
  if bool_decide (field_bits > 32) then
    let ps := pack_if_pending ps in
    let ps :=
      if bool_decide (start_bit ≠ 0)
      then mkPack (blocks ps) (next_row (cursor ps)) (pending ps) (first ps)
      else ps in
    mkPack (blocks ps ++ [WideBlock field (first ps)]) (cursor ps + field_bits)
      (pending ps) false
  else
    let '(ps, start_bit) :=
      if bool_decide (start_bit + field_bits > 32) then
        let ps := pack_if_pending ps in
        (mkPack (blocks ps) (next_row (cursor ps)) (pending ps) (first ps), 0)
      else (ps, start_bit) in
    let end_bit := start_bit + field_bits - 1 in
    let ps := mkPack (blocks ps) (cursor ps + field_bits)
                (pending ps ++ [(field, start_bit, end_bit)]) (first ps) in
    if bool_decide (cursor ps `mod` 32 = 0) then pack_pending ps else ps.

Definition pack_init : pack_state := mkPack [] 0 [] true.

(** The loop over the fields, from a given state. *)
Definition pack_from (ps : pack_state) (fields : list Field) : pack_state :=
  foldl (λ ps field, pack_body field ps) ps fields.

(** The blocks [generate_diagram] renders for a field list, in order. *)
Definition row_packer (fields : list Field) : list block :=
  blocks (pack_if_pending (pack_from pack_init fields)).

Definition render_block (b : block) : result (list str) :=
  match b with
  | RowGroup row_fields is_first => _render_row row_fields is_first
  | WideBlock field is_first => _render_wide_field field is_first
  end.

Fixpoint render_blocks (bs : list block) : result (list str) :=
  match bs with
  | [] => Ok []
  | b :: bs' =>
      rendered ← render_block b;
      rest ← render_blocks bs';
      Ok (rendered ++ rest)
  end.

(** Views of the packer's output. *)
Definition row_groups (bs : list block) : list (list row_entry) :=
  omap (λ b, match b with RowGroup g _ => Some g | WideBlock _ _ => None end) bs.

Definition wide_fields (bs : list block) : list Field :=
  omap (λ b, match b with WideBlock f _ => Some f | RowGroup _ _ => None end) bs.

Definition entry_field (e : row_entry) : Field := e.1.1.
Definition entry_start (e : row_entry) : Z := e.1.2.
Definition entry_end (e : row_entry) : Z := e.2.

Definition total_bits (fields : list Field) : Z :=
  foldr (λ f acc, f_bits f + acc) 0 fields.

Definition group_bits (g : list row_entry) : Z :=
  total_bits (entry_field <$> g).

(** The loop state that a packer state stands for, the lines before the
    loop being [header]. *)
Definition rendered_state (header : list str) (ps : pack_state) : result loop_state :=
  body ← render_blocks (blocks ps);
  Ok (mkState (header ++ body) (cursor ps) (pending ps) (first ps)).

(** ** Notions the properties below are stated with *)

(** The columns left free to the right of a text centered in [width]. *)
Definition right_pad (width : Z) (text : str) : Z :=
  width - len text - left_pad width text.

(** The character-column width of an entry's span. *)
Definition entry_width (e : row_entry) : Z :=
  span_width (entry_start e) (entry_end e).

(** The specification's end-to-end example. *)
Definition version_field : Field := mkField (of_ascii "Version") 4 None.
Definition type_field : Field := mkField (of_ascii "Type") 4 None.
Definition length_field : Field := mkField (of_ascii "Length") 24 None.
Definition version_type_length : list Field :=
  [version_field; type_field; length_field].

(** Entries that follow one another from bit [start] on, each spanning
    exactly the bits of its field. *)
Fixpoint contiguous_from (start : Z) (g : list row_entry) : Prop :=
  match g with
  | [] => True
  | (f, s, e) :: g' => s = start ∧ e = s + f_bits f - 1 ∧ contiguous_from (e + 1) g'
  end.

(** No field, placed at the running bit total [cursor], crosses the end of
    its 32-bit row. *)
Fixpoint never_overflows (cursor : Z) (fields : list Field) : Prop :=
  match fields with
  | [] => True
  | f :: fields' =>
      cursor `mod` 32 + f_bits f ≤ 32 ∧ never_overflows (cursor + f_bits f) fields'
  end.

Definition ceil_div (a b : Z) : Z := (a + b - 1) `div` b.

(** Three fields of 24, 16 and 24 bits: 64 bits in all. *)
Definition straddling_fields : list Field :=
  [mkField (of_ascii "Label") 24 None; mkField (of_ascii "Port") 16 None;
   mkField (of_ascii "Nonce") 24 None].

(** A 48-bit field followed by an 8-bit field. *)
Definition address_field : Field := mkField (of_ascii "Address") 48 None.
Definition flags_field : Field := mkField (of_ascii "Flags") 8 None.

(** A row group as the packer builds them from fields of positive width:
    not empty, its entries contiguous from some bit on, within the 32 bits
    of the row. *)
Definition group_ok (g : list row_entry) : Prop :=
  g ≠ []
  ∧ Forall (λ e, 0 < f_bits (entry_field e)) g
  ∧ ∃ start, 0 ≤ start ∧ contiguous_from start g ∧ start + group_bits g ≤ 32.

(** The loop invariant of the packer: the emitted groups are well formed,
    and the open row, when there is one, ends where the cursor stands. *)
Definition pack_inv (ps : pack_state) : Prop :=
  Forall (λ g, group_ok g) (row_groups (blocks ps))
  ∧ (pending ps ≠ [] →
       Forall (λ e, 0 < f_bits (entry_field e)) (pending ps)
       ∧ ∃ start, 0 ≤ start ∧ contiguous_from start (pending ps)
                  ∧ start + group_bits (pending ps) = cursor ps `mod` 32
                  ∧ cursor ps `mod` 32 ≠ 0).

(** The row groups as they stand in a packer state, the open row counted. *)
Definition rows_so_far (ps : pack_state) : list (list row_entry) :=
  row_groups (blocks (pack_if_pending ps)).

(** The loop invariant of the packer over fields that never cross a row
    boundary: no wide block, every emitted group is a full row, the cursor
    counts the rows, and the open row holds the bits past the last full
    row. *)
Definition full_rows_inv (ps : pack_state) : Prop :=
  wide_fields (blocks ps) = []
  ∧ Forall (λ g, group_bits g = 32) (row_groups (blocks ps))
  ∧ len (row_groups (blocks ps)) = cursor ps `div` 32
  ∧ group_bits (pending ps) = cursor ps `mod` 32
  ∧ Forall (λ e, 0 < f_bits (entry_field e)) (pending ps).

(** The character a text centered in the span of the bits [start .. end_]
    puts at column [k], when the text covers that column. *)
Definition text_char (text : str) (start end_ : Z) (k : Z) : option char :=
  let origin := char_start start + left_pad (span_width start end_) text in
  if bool_decide (origin ≤ k < origin + len text)
  then text !! Z.to_nat (k - origin) else None.

(** The character of an entry's centered label at column [k]. *)
Definition label_writes (e : row_entry) (k : Z) : option char :=
  let '(f, s, en) := e in text_char (f_name f) s en k.

(** What the body of the name loop writes at column [k] for an entry whose
    label fits: the separator after the entry, or a character of the
    label. *)
Definition name_writes (e : row_entry) (k : Z) : option char :=
  let '(f, s, en) := e in
  if bool_decide (en < 31 ∧ k = char_end en) then Some BOX_V
  else label_writes e k.

(** The same for the body of the description loop. *)
Definition desc_writes (e : row_entry) (k : Z) : option char :=
  let '(f, s, en) := e in
  if bool_decide (en < 31 ∧ k = en * 2 + 3) then Some BOX_V
  else text_char (description_or_empty f) s en k.

(** The last character written at column [k] by a loop over the entries. *)
Fixpoint last_written (writes : row_entry → Z → option char)
    (g : list row_entry) (k : Z) : option char :=
  match g with
  | [] => None
  | e :: g' =>
      match last_written writes g' k with
      | Some c => Some c
      | None => writes e k
      end
  end.

(** The label and the description of every entry are no longer than the
    entry's span. *)
Definition texts_fit (g : list row_entry) : Prop :=
  Forall (λ e, len (f_name (entry_field e)) ≤ entry_width e
               ∧ len (description_or_empty (entry_field e)) ≤ entry_width e) g.

(** ** Notions of the further properties *)

(** The fields a block shows, in order, and the [is_first] it is rendered
    with. *)
Definition block_fields (b : block) : list Field :=
  match b with
  | RowGroup g _ => entry_field <$> g
  | WideBlock f _ => [f]
  end.

Definition block_first (b : block) : bool :=
  match b with
  | RowGroup _ is_first => is_first
  | WideBlock _ is_first => is_first
  end.

(** The number of lines a block is rendered as: the border, the name line
    and, when a description is present, the description line. *)
Definition block_lines (b : block) : nat :=
  match b with
  | RowGroup g _ => if any_description g then 3%nat else 2%nat
  | WideBlock f _ => if has_description f then 3%nat else 2%nat
  end.

(** A text centered between the two borders of a 65-character line. *)
Definition centered_line (text : str) : str :=
  [BOX_V] ++ replicate (Z.to_nat (left_pad 63 text)) SPACE ++ text
  ++ replicate (Z.to_nat (right_pad 63 text)) SPACE ++ [BOX_V].

(** The first character of a text centered in the span of the bits
    [start .. end_] falls left of index -65 of the line. *)
Definition span_raises (text : str) (start end_ : Z) : bool :=
  truthy text
  && bool_decide (char_start start + left_pad (span_width start end_) text < -65).

Definition name_raises (e : row_entry) : bool :=
  let '(f, s, en) := e in span_raises (f_name f) s en.

Definition desc_raises (e : row_entry) : bool :=
  let '(f, s, en) := e in span_raises (description_or_empty f) s en.

Definition entry_raises (e : row_entry) : bool := name_raises e || desc_raises e.

Definition block_raises (b : block) : bool :=
  match b with
  | RowGroup g _ => existsb entry_raises g
  | WideBlock f _ =>
      bool_decide (196 ≤ len (f_name f))
      || bool_decide (196 ≤ len (description_or_empty f))
  end.

(** The label of every entry is no longer than the entry's span. *)
Definition labels_fit (g : list row_entry) : Prop :=
  Forall (λ e, len (f_name (entry_field e)) ≤ entry_width e) g.

(** What a write loop leaves in column [k] of a 65-character line: the
    text laid out from index [origin] on, character [i] at index
    [origin + i], written only at the indices below [limit]; a negative
    index counts from the end of the line, as in Python, and of two
    characters written to one column the later one stays. *)
Definition laid_over (text : str) (origin limit : Z) (line : str) (k : nat)
    : option char :=
  if bool_decide (origin ≤ Z.of_nat k < origin + len text ∧ Z.of_nat k < limit)
  then text !! Z.to_nat (Z.of_nat k - origin)
  else if bool_decide (origin ≤ Z.of_nat k - 65 < origin + len text)
  then text !! Z.to_nat (Z.of_nat k - 65 - origin)
  else line !! k.

(** * Properties *)

(** ** Rendering the packer's blocks is [generate_diagram] *)

Section Simulation.

Variable header : list str.

Lemma render_blocks_snoc bs b :
  render_blocks (bs ++ [b]) =
  (body ← render_blocks bs; rendered ← render_block b; Ok (body ++ rendered)).
Proof.
  induction bs as [|b0 bs IH]; simpl.
  - destruct (render_block b) as [r|e]; simpl; [|done].
    by rewrite app_nil_r.
  - destruct (render_block b0) as [r0|e0]; simpl; [|done].
    rewrite IH. destruct (render_blocks bs) as [body|e]; simpl; [|done].
    destruct (render_block b) as [r|e]; simpl; [|done].
    by rewrite app_assoc.
Qed.

Lemma rendered_pending ps :
  (st ← rendered_state header ps; render_pending st) = rendered_state header (pack_pending ps).
Proof.
  unfold rendered_state, pack_pending, render_pending; simpl.
  rewrite render_blocks_snoc.
  destruct (render_blocks (blocks ps)) as [body|e]; simpl; [|done].
  destruct (_render_row (pending ps) (first ps)) as [r|e]; simpl; [|done].
  by rewrite app_assoc.
Qed.

Lemma rendered_if_pending ps :
  (st ← rendered_state header ps; render_if_pending st) = rendered_state header (pack_if_pending ps).
Proof.
  unfold render_if_pending, pack_if_pending.
  destruct (pending ps) as [|e0 rest] eqn:Hp.
  - unfold rendered_state. destruct (render_blocks (blocks ps)); simpl; [|done].
    by rewrite Hp.
  - rewrite <- rendered_pending. unfold rendered_state.
    destruct (render_blocks (blocks ps)); simpl; [|done]. by rewrite Hp.
Qed.

Lemma rendered_body field ps :
  (st ← rendered_state header ps; loop_body field st) = rendered_state header (pack_body field ps).
Proof.
  unfold rendered_state, loop_body, pack_body, render_if_pending, pack_if_pending,
    render_pending, pack_pending.
  destruct ps as [bs c pend fst]; simpl.
  destruct (render_blocks bs) as [body|e] eqn:Hb; destruct pend as [|e0 pend];
    repeat (unfold mbind, result_bind in *; simpl in *; simplify_eq;
            rewrite ?render_blocks_snoc, ?Hb in *; try case_match);
    rewrite ?app_assoc; try done.
Qed.

Lemma rendered_loop fields : ∀ ps,
  (st ← rendered_state header ps; for_in fields loop_body st)
  = rendered_state header (pack_from ps fields).
Proof.
  induction fields as [|f fields IH]; intros ps; simpl.
  - by destruct (rendered_state header ps).
  - rewrite <- IH, <- rendered_body.
    by destruct (rendered_state header ps).
Qed.

End Simulation.

(** [generate_diagram]'s lines are the header, the packer's blocks rendered
    in order, the closing border and the note. *)
Lemma diagram_lines_row_packer protocol :
  diagram_lines protocol =
  (body ← render_blocks (row_packer (p_fields protocol));
   Ok (title_lines protocol ++ [ruler_tens; ruler_units] ++ body
       ++ [closing_border] ++ note_lines protocol)).
Proof.
  unfold diagram_lines, row_packer.
  set (header := title_lines protocol ++ [ruler_tens] ++ [ruler_units]).
  pose proof (rendered_loop header (p_fields protocol) pack_init) as Hl.
  unfold rendered_state at 1 in Hl. simpl in Hl. rewrite app_nil_r in Hl.
  rewrite Hl.
  pose proof (rendered_if_pending header (pack_from pack_init (p_fields protocol))) as Hp.
  destruct (rendered_state header (pack_from pack_init (p_fields protocol))) as [st|e] eqn:Hst;
    simpl in *.
  - rewrite Hp. unfold rendered_state.
    destruct (render_blocks _) as [body|e]; simpl; [|done].
    unfold header. by rewrite <- !app_assoc.
  - unfold rendered_state in Hst.
    destruct (render_blocks (blocks (pack_from pack_init (p_fields protocol))))
      as [body|e'] eqn:Hb; simpl in Hst; [done|].
    inversion Hst; subst e'.
    unfold pack_if_pending. destruct (pending _); simpl.
    + by rewrite Hb.
    + by rewrite render_blocks_snoc, Hb.
Qed.

(** ** The diagram of a protocol without fields *)

(** C8. A protocol with a name, no total note and an empty field list is
    rendered without raising, as exactly five lines: the title (the name,
    followed by the source in parentheses when there is one), an empty line,
    the two ruler lines and the closing border; nothing stands between the
    ruler and the border. The returned text is these lines joined by
    newlines. *)
Theorem empty_field_list_diagram (name : str) (source : option str) :
  let protocol := mkProtocol (Some name) source None [] in
  let title :=
    match source with
    | Some src => name ++ of_ascii " (" ++ src ++ of_ascii ")"
    | None => name
    end in
  diagram_lines protocol = Ok [title; []; ruler_tens; ruler_units; closing_border]
  ∧ generate_diagram protocol
    = Ok (title ++ [NEWLINE] ++ [NEWLINE] ++ ruler_tens ++ [NEWLINE]
          ++ ruler_units ++ [NEWLINE] ++ closing_border).
Proof.
  assert (diagram_lines (mkProtocol (Some name) source None [])
          = Ok [match source with
                | Some src => name ++ of_ascii " (" ++ src ++ of_ascii ")"
                | None => name
                end; []; ruler_tens; ruler_units; closing_border]) as Hl.
  { unfold diagram_lines, title_lines; simpl. by destruct source. }
  split; [exact Hl|].
  unfold generate_diagram. rewrite Hl. reflexivity.
Qed.

(** ** Centering *)

(** The padding arithmetic of a centered text: [left_pad] is the floor of
    half the leftover. *)
Lemma left_pad_floor width text :
  2 * left_pad width text ≤ width - len text < 2 * left_pad width text + 2.
Proof.
  unfold left_pad.
  pose proof (Z.div_mod (width - len text) 2 ltac:(lia)).
  pose proof (Z.mod_pos_bound (width - len text) 2 ltac:(lia)).
  lia.
Qed.

(** The left padding is the floor of half the leftover. For a text that
    fits its span this is the truncating quotient, it is not negative, and
    the right padding is equal to it when the leftover is even and one more
    when it is odd. For a text longer than its span by an odd number of
    characters it is one less than the truncating quotient. *)
Lemma left_pad_centering (width : Z) (text : str) :
  let pad := width - len text in
  left_pad width text = pad `div` 2
  ∧ 2 * left_pad width text ≤ pad < 2 * left_pad width text + 2
  ∧ (0 ≤ pad →
       left_pad width text = pad `quot` 2
       ∧ 0 ≤ left_pad width text
       ∧ right_pad width text = left_pad width text + pad `mod` 2)
  ∧ (pad < 0 → pad `mod` 2 = 1 → left_pad width text = pad `quot` 2 - 1).
Proof.
  intros pad. pose proof (left_pad_floor width text) as Hf.
  split; [done|]. split; [done|]. unfold right_pad.
  pose proof (Z.mod_pos_bound pad 2 ltac:(lia)).
  pose proof (Z.div_mod pad 2 ltac:(lia)).
  assert (left_pad width text = pad `div` 2) as Hd by done.
  split.
  - intros Hpos. rewrite Z.quot_div_nonneg by lia. subst pad. lia.
  - intros Hneg Hodd.
    pose proof (Z.quot_rem pad 2 ltac:(lia)).
    pose proof (Z.rem_bound_pos_neg pad 2 ltac:(lia) ltac:(lia)).
    subst pad. lia.
Qed.

(** ** The end-to-end example *)

(** C3, as stated, fails: the spans of the three labels are not 8, 8 and 47
    columns wide. *)
Lemma version_type_length_widths_not_8_8_47 :
  entry_width <$> concat (row_groups (row_packer version_type_length)) ≠ [8; 8; 47].
Proof. vm_compute. discriminate. Qed.

(** C3, amended. The fields Version (4 bits), Type (4 bits) and Length
    (24 bits) are packed into exactly one row group, with bit spans 0-3, 4-7
    and 8-31; the labels are centered in character spans of widths 7, 7 and
    47 (columns 1-7, 9-15 and 17-63), with left paddings 0, 1 and 20, and
    the row is rendered as a border line and one label line. *)
Theorem version_type_length_row :
  row_packer version_type_length
  = [RowGroup [(version_field, 0, 3); (type_field, 4, 7); (length_field, 8, 31)] true]
  ∧ entry_width <$> concat (row_groups (row_packer version_type_length)) = [7; 7; 47]
  ∧ (λ e, left_pad (entry_width e) (f_name (entry_field e)))
      <$> concat (row_groups (row_packer version_type_length)) = [0; 1; 20]
  ∧ render_blocks (row_packer version_type_length)
    = Ok [ [BOX_DR] ++ replicate 8 BOX_H ++ [BOX_DH] ++ replicate 7 BOX_H ++ [BOX_DH]
             ++ replicate 46 BOX_H ++ [BOX_DL];
           [BOX_V] ++ of_ascii "Version" ++ [BOX_V] ++ of_ascii " Type  " ++ [BOX_V]
             ++ of_ascii "                    Length                     " ++ [BOX_V] ].
Proof. repeat split; vm_compute; reflexivity. Qed.

(** ** Texts longer than their span *)

(** C6 fails on the code. A 140-character name on a 4-bit field makes
    [generate_diagram] raise IndexError, and so does a 196-character name on
    a wide field; the 11-character name "Destination" on a 4-bit field is
    not cut to its span: its first two characters are written over the right
    and the left border of the line. *)
Theorem overlong_label_not_skipped :
  generate_diagram (mkProtocol None None None [mkField (replicate 140 65%N) 4 None])
  = Raise IndexError
  ∧ generate_diagram (mkProtocol None None None [mkField (replicate 196 65%N) 64 None])
    = Raise IndexError
  ∧ _render_row [(mkField (of_ascii "Destination") 4 None, 0, 3)] true
    = Ok [ [BOX_DR] ++ replicate 63 BOX_H ++ [BOX_DL];
           of_ascii "estinati" ++ [BOX_V] ++ replicate 55 SPACE ++ of_ascii "D" ].
Proof. repeat split; vm_compute; reflexivity. Qed.

(** ** Line lengths *)

Lemma setitem_length {A} (l l' : list A) i v :
  setitem l i v = Ok l' → length l' = length l.
Proof.
  unfold setitem. repeat case_bool_decide; intros Hset; simplify_eq;
    by rewrite length_insert.
Qed.

(** What a loop body preserves, the loop preserves. *)
Lemma for_in_preserves {A S} (P : S → Prop) (body : A → S → result S) xs :
  (∀ x s s', P s → body x s = Ok s' → P s') →
  ∀ s s', P s → for_in xs body s = Ok s' → P s'.
Proof.
  intros Hbody. induction xs as [|x xs IH]; intros s s' Hs; simpl.
  - intros ?; by simplify_eq.
  - destruct (body x s) as [s1|e] eqn:Hb; simpl; [|done]. eauto.
Qed.

Lemma for_enumerate_preserves {A S} (P : S → Prop) (body : Z → A → S → result S) xs :
  (∀ i x s s', P s → body i x s = Ok s' → P s') →
  ∀ i s s', P s → for_enumerate i xs body s = Ok s' → P s'.
Proof.
  intros Hbody. induction xs as [|x xs IH]; intros i s s' Hs; simpl.
  - intros ?; by simplify_eq.
  - destruct (body i x s) as [s1|e] eqn:Hb; simpl; [|done]. eauto.
Qed.

Lemma write_span_length text start end_ line line' :
  write_span text start end_ line = Ok line' → length line' = length line.
Proof.
  unfold write_span.
  apply (for_enumerate_preserves (λ l, length l = length line)); [|done].
  intros i ch s s' Hs. destruct (_ && _); intros H; simplify_eq; [|done].
  apply setitem_length in H. congruence.
Qed.

Lemma write_wide_length text line line' :
  write_wide text line = Ok line' → length line' = length line.
Proof.
  unfold write_wide.
  apply (for_enumerate_preserves (λ l, length l = length line)); [|done].
  intros i ch s s' Hs. case_bool_decide; intros Hset; simplify_eq; [|done].
  apply setitem_length in Hset. congruence.
Qed.

Lemma name_entry_length e line line' :
  name_entry e line = Ok line' → length line' = length line.
Proof.
  destruct e as [[f s] e]. unfold name_entry.
  destruct (write_span _ _ _ _) as [l1|?] eqn:Hw; simpl; [|done].
  apply write_span_length in Hw.
  destruct (_ && _); intros H; simplify_eq; [|done].
  apply setitem_length in H. congruence.
Qed.

Lemma desc_entry_length e line line' :
  desc_entry e line = Ok line' → length line' = length line.
Proof.
  destruct e as [[f s] e]. unfold desc_entry.
  assert (∀ l1, (if truthy (description_or_empty f)
                 then write_span (description_or_empty f) s e line
                 else Ok line) = Ok l1 → length l1 = length line) as Hw.
  { intros l1. destruct (truthy _); [apply write_span_length|].
    intros ?; by simplify_eq. }
  destruct (if truthy _ then _ else _) as [l1|?]; simpl; [|done].
  specialize (Hw l1 eq_refl).
  repeat case_bool_decide; intros Hset; simplify_eq; try done.
  apply setitem_length in Hset. congruence.
Qed.

Lemma blank_line_length : length blank_line = 65%nat.
Proof. reflexivity. Qed.

Lemma row_border_length row_fields is_first :
  length (row_border row_fields is_first) = 65%nat.
Proof.
  unfold row_border. rewrite !length_app, length_fmap, length_seqZ. reflexivity.
Qed.

Lemma _render_row_lengths row_fields is_first rendered :
  _render_row row_fields is_first = Ok rendered →
  Forall (λ l, length l = 65%nat) rendered.
Proof.
  unfold _render_row.
  destruct (for_in row_fields name_entry blank_line) as [name_line|?] eqn:Hn;
    simpl; [|done].
  assert (length name_line = 65%nat) as Hnl.
  { revert Hn. apply (for_in_preserves (λ l, length l = 65%nat)); [|done].
    intros x s s' Hs Hx. apply name_entry_length in Hx. congruence. }
  pose proof (row_border_length row_fields is_first) as Hb.
  destruct (any_description _).
  - destruct (for_in row_fields desc_entry blank_line) as [desc_line|?] eqn:Hd;
      simpl; [|done].
    assert (length desc_line = 65%nat) as Hdl.
    { revert Hd. apply (for_in_preserves (λ l, length l = 65%nat)); [|done].
      intros x s s' Hs Hx. apply desc_entry_length in Hx. congruence. }
    intros ?; simplify_eq. repeat constructor; done.
  - intros ?; simplify_eq. repeat constructor; done.
Qed.

Lemma _render_wide_field_lengths field is_first rendered :
  _render_wide_field field is_first = Ok rendered →
  Forall (λ l, length l = 65%nat) rendered.
Proof.
  unfold _render_wide_field.
  destruct (write_wide (f_name field) blank_line) as [name_line|?] eqn:Hn;
    simpl; [|done].
  apply write_wide_length in Hn.
  assert (∀ c1 c2 : char, length ([c1] ++ replicate 63 BOX_H ++ [c2]) = 65%nat)
    as Hb by done.
  destruct (has_description field).
  - destruct (write_wide _ blank_line) as [desc_line|?] eqn:Hd; simpl; [|done].
    apply write_wide_length in Hd.
    intros ?; simplify_eq. destruct is_first; repeat constructor; done.
  - intros ?; simplify_eq. destruct is_first; repeat constructor; done.
Qed.

Lemma render_blocks_lengths bs : ∀ body,
  render_blocks bs = Ok body → Forall (λ l, length l = 65%nat) body.
Proof.
  induction bs as [|b bs IH]; intros body; simpl.
  - intros ?; simplify_eq. constructor.
  - destruct (render_block b) as [r|?] eqn:Hb; simpl; [|done].
    destruct (render_blocks bs) as [rest|?]; simpl; [|done].
    intros ?; simplify_eq. apply Forall_app. split; [|by apply IH].
    destruct b; simpl in Hb;
      eauto using _render_row_lengths, _render_wide_field_lengths.
Qed.

(** C10. Whenever [generate_diagram] returns, the text it returns is the
    newline-joined list of the title lines, the two ruler lines, the body,
    the closing border and the note lines, where the body is the rendering
    of the packer's blocks (the top border, the name line and the
    description line of every row and of every wide block); every line of
    the body and the closing border are exactly 65 characters long. *)
Theorem diagram_body_lines_65 (protocol : Protocol) (text : str) :
  generate_diagram protocol = Ok text →
  ∃ body,
    render_blocks (row_packer (p_fields protocol)) = Ok body
    ∧ text = join [NEWLINE]
               (title_lines protocol ++ [ruler_tens; ruler_units] ++ body
                ++ [closing_border] ++ note_lines protocol)
    ∧ Forall (λ line, len line = 65) (body ++ [closing_border]).
Proof.
  unfold generate_diagram. rewrite diagram_lines_row_packer.
  destruct (render_blocks _) as [body|?] eqn:Hb; simpl; [|done].
  intros ?; simplify_eq. exists body. split; [done|]. split; [done|].
  apply render_blocks_lengths in Hb.
  apply Forall_app. split.
  - eapply Forall_impl; [exact Hb|]. intros l Hl. unfold len. rewrite Hl. done.
  - repeat constructor.
Qed.

(** ** The packer *)

Lemma pack_from_app ps fields1 fields2 :
  pack_from ps (fields1 ++ fields2) = pack_from (pack_from ps fields1) fields2.
Proof. apply foldl_app. Qed.

Lemma row_groups_app bs1 bs2 :
  row_groups (bs1 ++ bs2) = row_groups bs1 ++ row_groups bs2.
Proof. unfold row_groups. apply omap_app. Qed.

Lemma wide_fields_app bs1 bs2 :
  wide_fields (bs1 ++ bs2) = wide_fields bs1 ++ wide_fields bs2.
Proof. unfold wide_fields. apply omap_app. Qed.

Lemma total_bits_app fs1 fs2 : total_bits (fs1 ++ fs2) = total_bits fs1 + total_bits fs2.
Proof. induction fs1 as [|f fs1 IH]; simpl; [done|]. rewrite IH. lia. Qed.

Lemma group_bits_cons e g : group_bits (e :: g) = f_bits (entry_field e) + group_bits g.
Proof. reflexivity. Qed.

Lemma group_bits_app g1 g2 : group_bits (g1 ++ g2) = group_bits g1 + group_bits g2.
Proof. unfold group_bits. rewrite fmap_app. apply total_bits_app. Qed.

Lemma next_row_aligned c : next_row c `mod` 32 = 0.
Proof. unfold next_row. apply Z.mod_mul. done. Qed.

Lemma next_row_of_aligned c : c `mod` 32 = 0 → next_row c = c.
Proof. unfold next_row. intros H. Z.div_mod_to_equations. lia. Qed.

Lemma next_row_bounds c : c ≤ next_row c < c + 32.
Proof. unfold next_row. Z.div_mod_to_equations. lia. Qed.

Lemma pack_if_pending_cursor ps : cursor (pack_if_pending ps) = cursor ps.
Proof. unfold pack_if_pending. by destruct (pending ps). Qed.

Lemma pack_if_pending_pending ps : pending (pack_if_pending ps) = [].
Proof. unfold pack_if_pending. by destruct (pending ps) eqn:H. Qed.

Lemma pack_if_pending_blocks ps :
  blocks (pack_if_pending ps)
  = blocks ps ++ match pending ps with
                 | [] => []
                 | _ :: _ => [RowGroup (pending ps) (first ps)]
                 end.
Proof.
  unfold pack_if_pending, pack_pending.
  destruct (pending ps) eqn:Hp; simpl; by rewrite ?app_nil_r.
Qed.

(** The three cases of the loop body. *)
Lemma pack_body_wide field ps :
  f_bits field > 32 →
  pack_body field ps =
  let ps1 := pack_if_pending ps in
  mkPack (blocks ps1 ++ [WideBlock field (first ps1)])
    (next_row (cursor ps) + f_bits field) [] false.
Proof.
  intros Hw. unfold pack_body. rewrite bool_decide_eq_true_2 by done.
  case_bool_decide as Ha; simpl.
  - by rewrite pack_if_pending_cursor, pack_if_pending_pending.
  - rewrite pack_if_pending_cursor, pack_if_pending_pending.
    rewrite next_row_of_aligned; [done|]. lia.
Qed.

Lemma pack_body_overflow field ps :
  f_bits field ≤ 32 → cursor ps `mod` 32 + f_bits field > 32 →
  pack_body field ps =
  let ps1 := pack_if_pending ps in
  let ps2 := mkPack (blocks ps1) (next_row (cursor ps) + f_bits field)
               [(field, 0, 0 + f_bits field - 1)] (first ps1) in
  if bool_decide (cursor ps2 `mod` 32 = 0) then pack_pending ps2 else ps2.
Proof.
  intros Hn Ho. unfold pack_body.
  rewrite bool_decide_eq_false_2 by lia. rewrite bool_decide_eq_true_2 by done.
  simpl. by rewrite pack_if_pending_cursor, pack_if_pending_pending.
Qed.

Lemma pack_body_fits field ps :
  f_bits field ≤ 32 → cursor ps `mod` 32 + f_bits field ≤ 32 →
  pack_body field ps =
  let start_bit := cursor ps `mod` 32 in
  let ps2 := mkPack (blocks ps) (cursor ps + f_bits field)
               (pending ps ++ [(field, start_bit, start_bit + f_bits field - 1)])
               (first ps) in
  if bool_decide (cursor ps2 `mod` 32 = 0) then pack_pending ps2 else ps2.
Proof.
  intros Hn Ho. unfold pack_body.
  rewrite bool_decide_eq_false_2 by lia. rewrite bool_decide_eq_false_2 by lia.
  done.
Qed.

(** The fields the packer has placed in rows so far, in order. *)
Lemma pack_body_narrow_fields field ps :
  entry_field <$> (concat (row_groups (blocks (pack_body field ps)))
                   ++ pending (pack_body field ps))
  = (entry_field <$> (concat (row_groups (blocks ps)) ++ pending ps))
    ++ (if bool_decide (f_bits field ≤ 32) then [field] else []).
Proof.
  assert (∀ ps, concat (row_groups (blocks (pack_if_pending ps)))
                = concat (row_groups (blocks ps)) ++ pending ps) as Hflush.
  { intros ps'. rewrite pack_if_pending_blocks, row_groups_app, concat_app.
    destruct (pending ps'); simpl; by rewrite ?app_nil_r. }
  destruct (decide (f_bits field ≤ 32)) as [Hn|Hw].
  - rewrite (bool_decide_eq_true_2 _ Hn).
    destruct (decide (cursor ps `mod` 32 + f_bits field ≤ 32)) as [Hf|Ho].
    + rewrite pack_body_fits by done. simpl.
      case_bool_decide; simpl;
        rewrite ?row_groups_app, ?concat_app, ?fmap_app; simpl;
        rewrite ?app_nil_r, ?fmap_app, ?app_assoc; done.
    + rewrite pack_body_overflow by lia. simpl.
      case_bool_decide; simpl;
        rewrite ?row_groups_app, ?concat_app, ?Hflush, ?fmap_app; simpl;
        rewrite ?app_nil_r, ?fmap_app, ?app_assoc; done.
  - rewrite bool_decide_eq_false_2 by done.
    rewrite pack_body_wide by lia. simpl.
    rewrite row_groups_app, concat_app, Hflush. simpl. by rewrite !app_nil_r.
Qed.

Lemma pack_body_wide_fields field ps :
  wide_fields (blocks (pack_body field ps))
  = wide_fields (blocks ps) ++ (if bool_decide (f_bits field > 32) then [field] else []).
Proof.
  assert (∀ ps, wide_fields (blocks (pack_if_pending ps)) = wide_fields (blocks ps))
    as Hflush.
  { intros ps'. rewrite pack_if_pending_blocks, wide_fields_app.
    destruct (pending ps'); simpl; by rewrite ?app_nil_r. }
  destruct (decide (f_bits field ≤ 32)) as [Hn|Hw].
  - rewrite bool_decide_eq_false_2 by lia.
    destruct (decide (cursor ps `mod` 32 + f_bits field ≤ 32)) as [Hf|Ho].
    + rewrite pack_body_fits by done. simpl.
      case_bool_decide; simpl; rewrite ?wide_fields_app; simpl; by rewrite ?app_nil_r.
    + rewrite pack_body_overflow by lia. simpl.
      case_bool_decide; simpl; rewrite ?wide_fields_app, ?Hflush; simpl;
        by rewrite ?app_nil_r.
  - rewrite bool_decide_eq_true_2 by lia.
    rewrite pack_body_wide by lia. simpl.
    by rewrite wide_fields_app, Hflush.
Qed.

Lemma pack_from_fields fields : ∀ ps,
  entry_field <$> (concat (row_groups (blocks (pack_from ps fields)))
                   ++ pending (pack_from ps fields))
  = (entry_field <$> (concat (row_groups (blocks ps)) ++ pending ps))
    ++ filter (λ f, f_bits f ≤ 32) fields
  ∧ wide_fields (blocks (pack_from ps fields))
    = wide_fields (blocks ps) ++ filter (λ f, f_bits f > 32) fields.
Proof.
  induction fields as [|f fields IH]; intros ps; simpl.
  - by rewrite !app_nil_r.
  - destruct (IH (pack_body f ps)) as [IH1 IH2].
    unfold pack_from in *. simpl. rewrite IH1, IH2.
    rewrite pack_body_narrow_fields, pack_body_wide_fields.
    rewrite !filter_cons. rewrite <- !app_assoc.
    split; f_equal; repeat case_bool_decide; repeat case_decide; done || lia.
Qed.

(** Every field of at most 32 bits is placed in a row group, once and in
    order; every wider field gets a block of its own, once and in order. *)
Lemma row_packer_fields fields :
  entry_field <$> concat (row_groups (row_packer fields))
  = filter (λ f, f_bits f ≤ 32) fields
  ∧ wide_fields (row_packer fields) = filter (λ f, f_bits f > 32) fields.
Proof.
  unfold row_packer.
  destruct (pack_from_fields fields pack_init) as [H1 H2]. simpl in H1, H2.
  rewrite pack_if_pending_blocks, row_groups_app, wide_fields_app, concat_app.
  rewrite H2. rewrite <- H1.
  destruct (pending _); simpl; rewrite ?app_nil_r; done.
Qed.

(** ** Row groups are well formed *)

Lemma contiguous_from_snoc g : ∀ start f s e,
  contiguous_from start (g ++ [(f, s, e)])
  ↔ contiguous_from start g ∧ s = start + group_bits g ∧ e = s + f_bits f - 1.
Proof.
  induction g as [|[[f0 s0] e0] g IH]; intros start f s e; simpl.
  - unfold group_bits; simpl. intuition lia.
  - rewrite IH. rewrite (group_bits_cons (f0, s0, e0)).
    unfold entry_field; simpl. intuition lia.
Qed.

Lemma rows_so_far_eq ps :
  rows_so_far ps
  = row_groups (blocks ps) ++ match pending ps with [] => [] | _ :: _ => [pending ps] end.
Proof.
  unfold rows_so_far. rewrite pack_if_pending_blocks, row_groups_app.
  by destruct (pending ps).
Qed.

Lemma pack_inv_rows ps : pack_inv ps → Forall group_ok (rows_so_far ps).
Proof.
  intros [Hb Hp]. rewrite rows_so_far_eq. apply Forall_app. split; [done|].
  destruct (pending ps) as [|e0 g] eqn:Hg; [constructor|].
  destruct Hp as (Hpos & start & H0 & Hc & Hs & Hne); [done|].
  apply Forall_cons. split; [|constructor].
  split; [done|]. split; [done|].
  exists start. pose proof (Z.mod_pos_bound (cursor ps) 32 ltac:(lia)).
  split; [done|]. split; [done|]. lia.
Qed.

Lemma pack_inv_close ps : pack_inv ps → pack_inv (pack_if_pending ps).
Proof.
  intros Hi. pose proof (pack_inv_rows ps Hi) as Hr.
  split; [exact Hr|]. by rewrite pack_if_pending_pending.
Qed.

(** Closing the row to which an entry has just been added. *)
Lemma pack_inv_placed bs c g fst :
  Forall group_ok (row_groups bs) → group_ok g →
  (c `mod` 32 ≠ 0 →
     ∃ start, 0 ≤ start ∧ contiguous_from start g
              ∧ start + group_bits g = c `mod` 32) →
  pack_inv (let ps2 := mkPack bs c g fst in
            if bool_decide (cursor ps2 `mod` 32 = 0) then pack_pending ps2 else ps2).
Proof.
  intros Hb Hg Hopen. simpl. case_bool_decide as Hc.
  - split; simpl; [|done]. rewrite row_groups_app. apply Forall_app. split; [done|].
    simpl. by constructor.
  - split; simpl; [done|]. intros _. destruct Hg as (_ & Hpos & _).
    split; [done|]. destruct (Hopen Hc) as (start & ? & ? & ?).
    exists start. done.
Qed.

Lemma pack_inv_body field ps :
  0 < f_bits field → pack_inv ps → pack_inv (pack_body field ps).
Proof.
  intros Hpos Hi.
  destruct (decide (f_bits field ≤ 32)) as [Hn|Hw].
  - destruct (decide (cursor ps `mod` 32 + f_bits field ≤ 32)) as [Hf|Ho].
    + rewrite pack_body_fits by done. cbv zeta.
      pose proof (Z.mod_pos_bound (cursor ps) 32 ltac:(lia)) as Hm.
      destruct Hi as [Hb Hp].
      assert (∃ start, 0 ≤ start
                ∧ contiguous_from start
                    (pending ps ++ [(field, cursor ps `mod` 32,
                                     cursor ps `mod` 32 + f_bits field - 1)])
                ∧ start + group_bits (pending ps) = cursor ps `mod` 32
                ∧ Forall (λ e, 0 < f_bits (entry_field e)) (pending ps))
        as (start & H0 & Hc & Hs & Hps).
      { destruct (pending ps) as [|e0 g] eqn:Hg.
        - exists (cursor ps `mod` 32). simpl. unfold group_bits; simpl.
          repeat split; try done; lia.
        - destruct Hp as (Hps & start & H0 & Hc & Hs & Hne); [done|].
          exists start. rewrite contiguous_from_snoc. repeat split; try done; lia. }
      assert (group_bits (pending ps ++ [(field, cursor ps `mod` 32,
                                          cursor ps `mod` 32 + f_bits field - 1)])
              = group_bits (pending ps) + f_bits field) as Hgb.
      { rewrite group_bits_app. unfold group_bits at 2; simpl.
        unfold entry_field; simpl. lia. }
      apply pack_inv_placed; [done| |].
      * split; [by destruct (pending ps)|]. split.
        { apply Forall_app. split; [done|]. by repeat constructor. }
        exists start. rewrite Hgb. repeat split; try done. lia.
      * intros Hne. exists start. rewrite Hgb. repeat split; try done.
        revert Hne. Z.div_mod_to_equations. lia.
    + rewrite pack_body_overflow by lia. cbv zeta.
      apply pack_inv_close in Hi. destruct Hi as [Hb _].
      assert (group_bits [(field, 0, 0 + f_bits field - 1)] = f_bits field) as Hgb.
      { unfold group_bits; simpl. unfold entry_field; simpl. lia. }
      pose proof (next_row_aligned (cursor ps)) as Ha.
      apply pack_inv_placed; [done| |].
      * split; [done|]. split; [by repeat constructor|].
        exists 0. rewrite Hgb. simpl. repeat split; try done; lia.
      * intros Hne. exists 0. rewrite Hgb. simpl. repeat split; try done.
        revert Hne Ha. generalize (next_row (cursor ps)). intros c.
        Z.div_mod_to_equations. lia.
  - rewrite pack_body_wide by lia. cbv zeta.
    apply pack_inv_close in Hi. destruct Hi as [Hb _].
    split; simpl; [|done]. rewrite row_groups_app. simpl. by rewrite app_nil_r.
Qed.

Lemma pack_inv_init : pack_inv pack_init.
Proof. split; simpl; [constructor|done]. Qed.

Lemma pack_inv_from fields : ∀ ps,
  Forall (λ f, 0 < f_bits f) fields → pack_inv ps → pack_inv (pack_from ps fields).
Proof.
  induction fields as [|f fields IH]; intros ps Hpos Hi; [done|].
  inversion Hpos; subst. apply IH; [done|]. by apply pack_inv_body.
Qed.

Lemma row_packer_groups_ok fields :
  Forall (λ f, 0 < f_bits f) fields → Forall group_ok (row_groups (row_packer fields)).
Proof.
  intros Hpos. apply (pack_inv_rows (pack_from pack_init fields)).
  apply pack_inv_from; [done|apply pack_inv_init].
Qed.

(** What contiguity gives for the entries one by one. *)
Lemma contiguous_from_bounds g : ∀ start,
  Forall (λ e, 0 < f_bits (entry_field e)) g → contiguous_from start g →
  Forall (λ e, start ≤ entry_start e ∧ entry_start e ≤ entry_end e
               ∧ entry_end e ≤ start + group_bits g - 1
               ∧ entry_end e - entry_start e + 1 = f_bits (entry_field e)) g.
Proof.
  induction g as [|[[f s] e] g IH]; intros start Hpos Hc; [constructor|].
  inversion Hpos as [|? ? Hf Hg]; subst. destruct Hc as (-> & -> & Hc).
  rewrite group_bits_cons. unfold entry_field, entry_start, entry_end in *; simpl in *.
  assert (0 ≤ group_bits g) as Hnn.
  { clear -Hg. induction g as [|e g IH]; [done|]. inversion Hg; subst.
    rewrite group_bits_cons. specialize (IH ltac:(done)). unfold entry_field in *. lia. }
  constructor; [simpl; lia|].
  eapply Forall_impl; [apply (IH _ Hg Hc)|]. simpl. intros [[f' s'] e']; simpl. lia.
Qed.

Lemma contiguous_from_adjacent g : ∀ start i e1 e2,
  contiguous_from start g → g !! i = Some e1 → g !! S i = Some e2 →
  entry_start e2 = entry_end e1 + 1.
Proof.
  induction g as [|[[f s] e] g IH]; intros start i e1 e2 Hc H1 H2; [done|].
  destruct Hc as (-> & -> & Hc). destruct i as [|i]; simpl in *.
  - simplify_eq. destruct g as [|[[f' s'] e'] g]; simpl in H2; simplify_eq.
    destruct Hc as (-> & _). unfold entry_start, entry_end; simpl. lia.
  - eauto.
Qed.

Lemma contiguous_from_disjoint g : ∀ start i j e1 e2,
  Forall (λ e, 0 < f_bits (entry_field e)) g → contiguous_from start g →
  (i < j)%nat → g !! i = Some e1 → g !! j = Some e2 →
  entry_end e1 < entry_start e2.
Proof.
  induction g as [|[[f s] e] g IH]; intros start i j e1 e2 Hpos Hc Hij H1 H2; [done|].
  inversion Hpos as [|? ? Hf Hg]; subst. destruct Hc as (-> & -> & Hc).
  destruct j as [|j]; [lia|]. destruct i as [|i]; simpl in *.
  - simplify_eq. pose proof (contiguous_from_bounds g _ Hg Hc) as Hb.
    rewrite Forall_lookup in Hb. specialize (Hb j e2 H2).
    unfold entry_end at 1; simpl. lia.
  - eapply (IH _ i j); eauto. lia.
Qed.

(** The row as it stands once a field that does not fit has been placed. *)
Lemma rows_so_far_overflow field ps :
  f_bits field ≤ 32 → cursor ps `mod` 32 + f_bits field > 32 →
  rows_so_far (pack_body field ps)
  = rows_so_far ps ++ [[(field, 0, f_bits field - 1)]].
Proof.
  intros Hn Ho. rewrite pack_body_overflow by done. cbv zeta.
  rewrite (rows_so_far_eq ps), !rows_so_far_eq.
  replace (0 + f_bits field - 1) with (f_bits field - 1) by lia.
  case_bool_decide; simpl; rewrite ?row_groups_app, pack_if_pending_blocks,
    ?row_groups_app; simpl; destruct (pending ps); simpl;
    rewrite ?app_nil_r, <- ?app_assoc; done.
Qed.

(** C4. For fields of positive width, every row group the packer emits is
    not empty, its entries follow one another without gap or overlap (each
    starts one bit after the previous one ends, and an earlier entry ends
    before a later one starts), every entry lies in bits 0..31 and spans
    exactly the bits of its field, and the widths of the group add up to at
    most 32. The fields of at most 32 bits appear in the row groups once
    each, whole and in order, so none is split across two groups; and a
    field that does not fit into the open row closes that row and is placed
    alone at bit 0 of a fresh one. *)
Theorem row_groups_well_formed (fields : list Field) :
  Forall (λ f, 0 < f_bits f) fields →
  (∀ g, g ∈ row_groups (row_packer fields) →
     g ≠ []
     ∧ (∀ i e1 e2, g !! i = Some e1 → g !! S i = Some e2 →
          entry_start e2 = entry_end e1 + 1)
     ∧ (∀ i j e1 e2, (i < j)%nat → g !! i = Some e1 → g !! j = Some e2 →
          entry_end e1 < entry_start e2)
     ∧ Forall (λ e, 0 ≤ entry_start e ∧ entry_start e ≤ entry_end e
                    ∧ entry_end e ≤ 31
                    ∧ entry_end e - entry_start e + 1 = f_bits (entry_field e)) g
     ∧ group_bits g ≤ 32)
  ∧ entry_field <$> concat (row_groups (row_packer fields))
    = filter (λ f, f_bits f ≤ 32) fields
  ∧ (∀ pre f post, fields = pre ++ f :: post → f_bits f ≤ 32 →
       let ps := pack_from pack_init pre in
       cursor ps `mod` 32 + f_bits f > 32 →
       rows_so_far (pack_body f ps) = rows_so_far ps ++ [[(f, 0, f_bits f - 1)]]).
Proof.
  intros Hpos. split; [|split].
  - intros g Hg.
    pose proof (row_packer_groups_ok fields Hpos) as Hok.
    rewrite Forall_forall in Hok. destruct (Hok g Hg) as (Hne & Hp & start & H0 & Hc & Hs).
    split; [done|]. split; [eauto using contiguous_from_adjacent|].
    split; [eauto using contiguous_from_disjoint|].
    pose proof (contiguous_from_bounds g start Hp Hc) as Hb.
    split.
    + eapply Forall_impl; [exact Hb|]. simpl. intros e. lia.
    + destruct g as [|e g]; [done|]. inversion Hp; subst.
      assert (0 ≤ group_bits (e :: g)); [|lia].
      inversion Hb; subst. lia.
  - apply row_packer_fields.
  - intros pre f post _ Hn ps Ho. by apply rows_so_far_overflow.
Qed.

(** ** Wide fields *)

Lemma row_groups_narrow fields g :
  g ∈ row_groups (row_packer fields) → Forall (λ e, f_bits (entry_field e) ≤ 32) g.
Proof.
  intros Hg. apply Forall_forall. intros e He.
  assert (entry_field e ∈ entry_field <$> concat (row_groups (row_packer fields))) as Hin.
  { apply list_elem_of_fmap_2. apply list_elem_of_In, in_concat.
    exists g. split; by apply list_elem_of_In. }
  rewrite (proj1 (row_packer_fields fields)) in Hin.
  apply list_elem_of_filter in Hin. tauto.
Qed.

(** C2, as stated, fails: after the 48-bit field the cursor stands at 48,
    which is not a multiple of 32, and the 8-bit field that follows is
    packed from bit 16 of its row on. *)
Lemma cursor_not_realigned_after_wide :
  cursor (pack_body address_field pack_init) `mod` 32 ≠ 0
  ∧ row_packer [address_field; flags_field]
    = [WideBlock address_field true; RowGroup [(flags_field, 16, 23)] false].
Proof. split; [vm_compute; discriminate | vm_compute; reflexivity]. Qed.

(** C2, amended. No entry of a row group is a field of more than 32 bits,
    and the wide blocks are the fields of more than 32 bits, one block each
    and in order. When the loop reaches such a field it closes the open row,
    emits the wide block and leaves no open row; the cursor is aligned up to
    the next multiple of 32 before the block and advanced by the field's
    width after it. So after the block the cursor stands at (width mod 32)
    within its row, which is a row boundary only when the width is a
    multiple of 32, and a following field of at most 32 bits that fits
    there is packed from that bit on, in a row of its own so far. *)
Theorem wide_field_blocks (fields : list Field) :
  (∀ g, g ∈ row_groups (row_packer fields) →
     Forall (λ e, f_bits (entry_field e) ≤ 32) g)
  ∧ wide_fields (row_packer fields) = filter (λ f, f_bits f > 32) fields
  ∧ (∀ pre f post, fields = pre ++ f :: post → f_bits f > 32 →
       let ps := pack_from pack_init pre in
       let ps' := pack_body f ps in
       blocks ps' = blocks (pack_if_pending ps) ++ [WideBlock f (first (pack_if_pending ps))]
       ∧ pending ps' = []
       ∧ next_row (cursor ps) `mod` 32 = 0
       ∧ cursor ps ≤ next_row (cursor ps) < cursor ps + 32
       ∧ cursor ps' = next_row (cursor ps) + f_bits f
       ∧ cursor ps' `mod` 32 = f_bits f `mod` 32
       ∧ (∀ g, f_bits g ≤ 32 → f_bits f `mod` 32 + f_bits g ≤ 32 →
            rows_so_far (pack_body g ps')
            = rows_so_far ps'
              ++ [[(g, f_bits f `mod` 32, f_bits f `mod` 32 + f_bits g - 1)]])).
Proof.
  split; [apply row_groups_narrow|]. split; [apply row_packer_fields|].
  intros pre f post _ Hw ps ps'. subst ps'.
  rewrite pack_body_wide by done. cbv zeta. simpl.
  pose proof (next_row_aligned (cursor ps)) as Ha.
  pose proof (next_row_bounds (cursor ps)) as Hb.
  assert ((next_row (cursor ps) + f_bits f) `mod` 32 = f_bits f `mod` 32) as Hm.
  { revert Ha. generalize (next_row (cursor ps)). intros c Hc.
    Z.div_mod_to_equations. lia. }
  repeat split; try done; try lia.
  intros g Hg Hfit.
  rewrite pack_body_fits; simpl; rewrite ?Hm; [|done|done].
  rewrite !rows_so_far_eq. simpl.
  case_bool_decide; simpl; rewrite ?row_groups_app; simpl;
    rewrite ?app_nil_r, <- ?app_assoc; done.
Qed.

(** ** Fields that fill their rows *)

Lemma group_bits_nonneg g :
  Forall (λ e, 0 < f_bits (entry_field e)) g → 0 ≤ group_bits g.
Proof.
  induction 1 as [|e g He Hg IH]; [done|]. rewrite group_bits_cons. lia.
Qed.

Lemma group_bits_pos g :
  Forall (λ e, 0 < f_bits (entry_field e)) g → g ≠ [] → 0 < group_bits g.
Proof.
  intros Hp Hne. destruct g as [|e g]; [done|]. inversion Hp; subst.
  rewrite group_bits_cons. pose proof (group_bits_nonneg g ltac:(done)). lia.
Qed.

Lemma full_rows_inv_init : full_rows_inv pack_init.
Proof. repeat split; constructor. Qed.

Lemma full_rows_inv_body field ps :
  0 < f_bits field ≤ 32 → cursor ps `mod` 32 + f_bits field ≤ 32 →
  full_rows_inv ps →
  full_rows_inv (pack_body field ps)
  ∧ cursor (pack_body field ps) = cursor ps + f_bits field.
Proof.
  intros [Hpos Hn] Hfit (Hw & Hfull & Hlen & Hgb & Hp).
  rewrite pack_body_fits by done. cbv zeta.
  set (entry := (field, cursor ps `mod` 32, cursor ps `mod` 32 + f_bits field - 1)).
  assert (group_bits (pending ps ++ [entry]) = cursor ps `mod` 32 + f_bits field) as Hgb'.
  { rewrite group_bits_app, Hgb. unfold group_bits; simpl. unfold entry_field; simpl. lia. }
  assert (Forall (λ e, 0 < f_bits (entry_field e)) (pending ps ++ [entry])) as Hp'.
  { apply Forall_app. split; [done|]. by repeat constructor. }
  pose proof (Z.mod_pos_bound (cursor ps) 32 ltac:(lia)) as Hm.
  simpl. case_bool_decide as Hc; simpl; (split; [|done]).
  - unfold full_rows_inv; simpl. rewrite wide_fields_app, row_groups_app, Hw. simpl.
    split; [done|]. split.
    { apply Forall_app. split; [done|]. repeat constructor. rewrite Hgb'.
      revert Hc. Z.div_mod_to_equations. lia. }
    split.
    { unfold len in *. rewrite length_app. simpl. revert Hc Hlen.
      Z.div_mod_to_equations. lia. }
    split; [|constructor]. unfold group_bits; simpl. by rewrite Hc.
  - unfold full_rows_inv; simpl. split; [done|]. split; [done|]. split.
    { rewrite Hlen. revert Hc. Z.div_mod_to_equations. lia. }
    split; [|done]. rewrite Hgb'. revert Hc. Z.div_mod_to_equations. lia.
Qed.

Lemma full_rows_inv_from fields : ∀ ps,
  Forall (λ f, 0 < f_bits f ≤ 32) fields → never_overflows (cursor ps) fields →
  full_rows_inv ps →
  full_rows_inv (pack_from ps fields)
  ∧ cursor (pack_from ps fields) = cursor ps + total_bits fields.
Proof.
  induction fields as [|f fields IH]; intros ps Hb Hno Hi; simpl.
  - split; [done|lia].
  - inversion Hb; subst. destruct Hno as [Hfit Hno].
    destruct (full_rows_inv_body f ps) as [Hi' Hc']; [done..|].
    destruct (IH (pack_body f ps)) as [Hi'' Hc'']; [done| by rewrite Hc' |done|].
    unfold pack_from in *. simpl. split; [done|]. rewrite Hc'', Hc'. lia.
Qed.

(** Fields of 1 to 32 bits none of which crosses a row boundary are packed
    into ceil(total / 32) row groups, all but the last one full. *)
Lemma row_packer_full_rows fields :
  Forall (λ f, 0 < f_bits f ≤ 32) fields → never_overflows 0 fields →
  let groups := row_groups (row_packer fields) in
  wide_fields (row_packer fields) = []
  ∧ len groups = ceil_div (total_bits fields) 32
  ∧ (∀ i g, groups !! i = Some g → (S i < length groups)%nat → group_bits g = 32)
  ∧ (total_bits fields `mod` 32 = 0 → Forall (λ g, group_bits g = 32) groups).
Proof.
  intros Hb Hno groups.
  destruct (full_rows_inv_from fields pack_init Hb Hno full_rows_inv_init)
    as [(Hw & Hfull & Hlen & Hgb & Hp) Hc].
  simpl in Hc. rewrite Z.add_0_l in Hc. set (ps := pack_from pack_init fields) in *.
  assert (groups = rows_so_far ps) as Hg by done.
  rewrite rows_so_far_eq in Hg.
  split.
  { unfold row_packer. fold ps. rewrite pack_if_pending_blocks, wide_fields_app, Hw.
    by destruct (pending ps). }
  unfold ceil_div. rewrite <- Hc. rewrite Hg. unfold len in *.
  destruct (pending ps) as [|e0 rest] eqn:Hpend.
  - rewrite app_nil_r. unfold group_bits in Hgb; simpl in Hgb.
    split; [revert Hlen; Z.div_mod_to_equations; lia|].
    split; [|by intros _]. intros i g Hi _. exact (Forall_lookup_1 _ _ _ _ Hfull Hi).
  - pose proof (group_bits_pos _ Hp ltac:(done)) as Hgp.
    rewrite length_app. simpl.
    split; [revert Hlen; Z.div_mod_to_equations; lia|].
    split; [|intros ?; exfalso; lia]. intros i g Hi Hlt.
    rewrite lookup_app_l in Hi by lia. exact (Forall_lookup_1 _ _ _ _ Hfull Hi).
Qed.

(** C1, as stated, fails: three fields of 24, 16 and 24 bits, 64 bits in
    all, are packed into three row groups, not two, and none of the groups
    adds up to 32 bits. *)
Lemma straddling_fields_three_rows :
  Forall (λ f, f_bits f ≤ 32) straddling_fields
  ∧ total_bits straddling_fields `mod` 32 = 0
  ∧ len (row_groups (row_packer straddling_fields))
    ≠ ceil_div (total_bits straddling_fields) 32
  ∧ group_bits <$> row_groups (row_packer straddling_fields) = [24; 16; 24].
Proof.
  split; [repeat constructor; vm_compute; discriminate|].
  split; [reflexivity|]. split; [vm_compute; discriminate|]. vm_compute. reflexivity.
Qed.

(** C1, amended. For fields of 1 to 32 bits whose widths add up to a
    multiple of 32 and none of which crosses a 32-bit row boundary (placed
    at the running bit total, each ends within its row), the packer emits
    row groups only, exactly ceil(total_bits / 32) of them, and the widths
    of every group but the last add up to exactly 32 (as do those of the
    last, the total being a multiple of 32). *)
Theorem aligned_fields_fill_rows (fields : list Field) :
  Forall (λ f, 0 < f_bits f ≤ 32) fields →
  total_bits fields `mod` 32 = 0 →
  never_overflows 0 fields →
  let groups := row_groups (row_packer fields) in
  wide_fields (row_packer fields) = []
  ∧ len groups = ceil_div (total_bits fields) 32
  ∧ (∀ i g, groups !! i = Some g → (S i < length groups)%nat → group_bits g = 32)
  ∧ Forall (λ g, group_bits g = 32) groups.
Proof.
  intros Hb Hm Hno groups.
  destruct (row_packer_full_rows fields Hb Hno) as (H1 & H2 & H3 & H4).
  repeat split; try done. by apply H4.
Qed.

(** ** What the renderer writes where *)

Lemma setitem_in_range {A} (l : list A) i v :
  0 ≤ i < len l → setitem l i v = Ok (<[Z.to_nat i := v]> l).
Proof. intros Hi. unfold setitem. by rewrite bool_decide_eq_true_2. Qed.

(** A loop over [enumerate(text)] all of whose positions lie in the line and
    pass the guard writes the text at those positions and nothing else. *)
Lemma for_enumerate_write (guard : Z → bool) (base : Z) (text : str) :
  ∀ (i : Z) (line : str),
  0 ≤ base + i → base + i + len text ≤ len line →
  (∀ j, i ≤ j < i + len text → guard (base + j) = true) →
  ∃ line',
    for_enumerate i text
      (λ i ch line, if guard (base + i) then setitem line (base + i) ch else Ok line)
      line = Ok line'
    ∧ length line' = length line
    ∧ ∀ k : nat,
        line' !! k =
        if bool_decide (base + i ≤ Z.of_nat k < base + i + len text)
        then text !! Z.to_nat (Z.of_nat k - (base + i)) else line !! k.
Proof.
  induction text as [|ch text IH]; intros i line Hlo Hhi Hg.
  - exists line. simpl. split; [done|]. split; [done|]. intros k.
    rewrite bool_decide_eq_false_2; [done|]. unfold len; simpl. lia.
  - unfold len in *. simpl length in *. simpl.
    rewrite Hg by lia. rewrite setitem_in_range by (unfold len; lia). simpl.
    destruct (IH (i + 1) (<[Z.to_nat (base + i) := ch]> line))
      as (line' & Hrun & Hlen & Hlook).
    { lia. } { unfold len. rewrite length_insert. lia. }
    { intros j Hj. apply Hg. unfold len in Hj. lia. }
    unfold len in Hlook.
    exists line'. replace (base + (i + 1)) with (base + i + 1) in * by lia.
    split; [exact Hrun|]. split; [by rewrite Hlen, length_insert|].
    intros k. rewrite Hlook.
    destruct (decide (Z.of_nat k = base + i)) as [Hk|Hk].
    + rewrite bool_decide_eq_false_2 by lia. rewrite bool_decide_eq_true_2 by lia.
      replace (Z.of_nat k - (base + i)) with 0 by lia. simpl.
      replace (Z.to_nat (base + i)) with k by lia.
      apply list_lookup_insert_eq. lia.
    + rewrite list_lookup_insert_ne by lia.
      case_bool_decide as H1.
      * rewrite bool_decide_eq_true_2 by lia.
        replace (Z.to_nat (Z.of_nat k - (base + i)))
          with (S (Z.to_nat (Z.of_nat k - (base + i + 1)))) by lia.
        done.
      * rewrite bool_decide_eq_false_2 by lia. done.
Qed.

Lemma left_pad_fits width text :
  len text ≤ width →
  0 ≤ left_pad width text ∧ left_pad width text + len text ≤ width.
Proof. intros Hf. pose proof (left_pad_floor width text). lia. Qed.

(** A text that fits its span is written inside the span. *)
Lemma write_span_fits text start end_ line :
  length line = 65%nat → 0 ≤ start → end_ ≤ 31 → len text ≤ span_width start end_ →
  ∃ line',
    write_span text start end_ line = Ok line'
    ∧ length line' = 65%nat
    ∧ ∀ k : nat,
        line' !! k = match text_char text start end_ (Z.of_nat k) with
                     | Some c => Some c
                     | None => line !! k
                     end.
Proof.
  intros Hlen Hs He Hfit. unfold write_span, text_char.
  destruct (left_pad_fits _ _ Hfit) as [Hp0 Hp1].
  set (base := char_start start + left_pad (span_width start end_) text).
  assert (char_start start ≤ base ∧ base + len text ≤ char_end end_) as [Hb0 Hb1].
  { unfold base, span_width in *. lia. }
  destruct (for_enumerate_write
              (λ pos, bool_decide (pos < char_end end_) && bool_decide (pos < 64))
              base text 0 line) as (line' & Hrun & Hl & Hlook).
  { unfold char_start in *. lia. }
  { unfold len at 2. rewrite Hlen. unfold char_end in *. lia. }
  { intros j Hj. rewrite !bool_decide_eq_true_2; [done| |]; unfold char_end in *; lia. }
  exists line'. split; [exact Hrun|]. split; [congruence|].
  intros k. rewrite Hlook. rewrite Z.add_0_r.
  case_bool_decide as Hk; [|done].
  destruct (text !! Z.to_nat (Z.of_nat k - base)) eqn:Ht; [done|].
  apply lookup_ge_None in Ht. unfold len in Hk. lia.
Qed.

Lemma name_entry_fits f s en line :
  length line = 65%nat → 0 ≤ s → s ≤ en + 1 → en ≤ 31 →
  len (f_name f) ≤ span_width s en →
  ∃ line',
    name_entry (f, s, en) line = Ok line'
    ∧ length line' = 65%nat
    ∧ ∀ k : nat,
        line' !! k = match name_writes (f, s, en) (Z.of_nat k) with
                     | Some c => Some c
                     | None => line !! k
                     end.
Proof.
  intros Hlen Hs Hse He Hfit. unfold name_entry, name_writes.
  destruct (write_span_fits (f_name f) s en line) as (line1 & -> & Hl1 & Hlook);
    [done..|]. simpl.
  case_bool_decide as Hsep.
  - rewrite bool_decide_eq_true_2 by (unfold char_end; lia). simpl.
    rewrite setitem_in_range by (unfold len, char_end; lia).
    eexists. split; [done|]. split; [by rewrite length_insert|].
    intros k. case_bool_decide as Hk.
    + destruct Hk as [_ Hk]. replace (Z.to_nat (char_end en)) with k by lia.
      apply list_lookup_insert_eq. unfold char_end in *. lia.
    + rewrite list_lookup_insert_ne by (unfold char_end in *; lia). apply Hlook.
  - simpl. exists line1. split; [done|]. split; [done|].
    intros k. rewrite bool_decide_eq_false_2 by lia. apply Hlook.
Qed.

Lemma desc_entry_fits f s en line :
  length line = 65%nat → 0 ≤ s → s ≤ en + 1 → en ≤ 31 →
  len (description_or_empty f) ≤ span_width s en →
  ∃ line',
    desc_entry (f, s, en) line = Ok line'
    ∧ length line' = 65%nat
    ∧ ∀ k : nat,
        line' !! k = match desc_writes (f, s, en) (Z.of_nat k) with
                     | Some c => Some c
                     | None => line !! k
                     end.
Proof.
  intros Hlen Hs Hse He Hfit. unfold desc_entry, desc_writes.
  destruct (write_span_fits (description_or_empty f) s en line)
    as (line1 & Hw & Hl1 & Hlook); [done..|].
  assert ((if truthy (description_or_empty f)
           then write_span (description_or_empty f) s en line
           else Ok line) = Ok line1) as ->.
  { destruct (description_or_empty f) eqn:Hd; exact Hw. }
  simpl. case_bool_decide as Hsep.
  - rewrite bool_decide_eq_true_2 by lia.
    rewrite setitem_in_range by (unfold len; lia).
    eexists. split; [done|]. split; [by rewrite length_insert|].
    intros k. case_bool_decide as Hk.
    + destruct Hk as [_ Hk]. replace (Z.to_nat (en * 2 + 3)) with k by lia.
      apply list_lookup_insert_eq. lia.
    + rewrite list_lookup_insert_ne by lia. apply Hlook.
  - exists line1. split; [done|]. split; [done|].
    intros k. rewrite bool_decide_eq_false_2 by lia. apply Hlook.
Qed.

(** A loop whose body overwrites columns leaves at each column the last
    character written there. *)
Lemma for_in_last_written (body : row_entry → str → result str)
    (writes : row_entry → Z → option char) (ok : row_entry → Prop) :
  (∀ e line, ok e → length line = 65%nat →
     ∃ line', body e line = Ok line'
       ∧ length line' = 65%nat
       ∧ ∀ k : nat, line' !! k = match writes e (Z.of_nat k) with
                                 | Some c => Some c
                                 | None => line !! k
                                 end) →
  ∀ g line, Forall ok g → length line = 65%nat →
  ∃ final, for_in g body line = Ok final
    ∧ length final = 65%nat
    ∧ ∀ k : nat, final !! k = match last_written writes g (Z.of_nat k) with
                              | Some c => Some c
                              | None => line !! k
                              end.
Proof.
  intros Hbody. induction g as [|e g IH]; intros line Hok Hlen.
  - exists line. done.
  - inversion Hok as [|? ? He Hg]; subst.
    destruct (Hbody e line He Hlen) as (line1 & Hb & Hl1 & Hlook1).
    destruct (IH line1 Hg Hl1) as (final & Hf & Hlf & Hlookf).
    exists final. simpl. rewrite Hb. simpl. split; [done|]. split; [done|].
    intros k. rewrite Hlookf, Hlook1. by destruct (last_written writes g (Z.of_nat k)).
Qed.

(** The bounds of an entry of a well-formed group and of what is written
    for it. *)
Lemma group_ok_entries g :
  group_ok g →
  Forall (λ e, 0 ≤ entry_start e ∧ entry_start e ≤ entry_end e ∧ entry_end e ≤ 31) g.
Proof.
  intros (_ & Hp & start & H0 & Hc & Hs).
  eapply Forall_impl; [apply (contiguous_from_bounds g start Hp Hc)|].
  simpl. intros e. lia.
Qed.

Lemma text_char_range text s en k c :
  len text ≤ span_width s en → text_char text s en k = Some c →
  char_start s ≤ k < char_end en.
Proof.
  intros Hfit. unfold text_char. destruct (left_pad_fits _ _ Hfit) as [Hp0 Hp1].
  case_bool_decide as Hk; [|done]. intros _. unfold span_width in *. lia.
Qed.

Lemma name_writes_range f s en k c :
  len (f_name f) ≤ span_width s en → name_writes (f, s, en) k = Some c →
  char_start s ≤ k ≤ char_end en.
Proof.
  intros Hfit. unfold name_writes. case_bool_decide as Hsep.
  - intros _. unfold span_width, len in *. lia.
  - intros Ht. apply text_char_range in Ht; [lia|done].
Qed.

Lemma desc_writes_range f s en k c :
  len (description_or_empty f) ≤ span_width s en → desc_writes (f, s, en) k = Some c →
  char_start s ≤ k ≤ char_end en + 1.
Proof.
  intros Hfit. unfold desc_writes. case_bool_decide as Hsep.
  - intros _. unfold span_width, char_end, len in *. lia.
  - intros Ht. apply text_char_range in Ht; [lia|done].
Qed.

Lemma last_written_none writes g k :
  Forall (λ e, writes e k = None) g → last_written writes g k = None.
Proof. induction 1 as [|e g He Hg IH]; simpl; [done|]. by rewrite IH. Qed.

(** Entries contiguous from bit [start] write nothing left of the column of
    that bit. *)
Lemma contiguous_writes_none (name_line : bool) g : ∀ start k,
  Forall (λ e, 0 < f_bits (entry_field e)) g → texts_fit g →
  contiguous_from start g → k < char_start start →
  Forall (λ e, (if name_line then name_writes e k else desc_writes e k) = None) g.
Proof.
  induction g as [|[[f s] en] g IH]; intros start k Hp Hfit Hc Hk; [constructor|].
  inversion Hp as [|? ? Hf Hg]; subst. inversion Hfit as [|? ? [Hn Hd] Hfit']; subst.
  destruct Hc as (-> & -> & Hc).
  unfold entry_field, entry_width, entry_start, entry_end in *; simpl in *.
  constructor.
  - destruct name_line.
    + destruct (name_writes _ k) eqn:Hw; [|done].
      apply name_writes_range in Hw; [lia|done].
    + destruct (desc_writes _ k) eqn:Hw; [|done].
      apply desc_writes_range in Hw; [lia|done].
  - apply (IH (start + f_bits f - 1 + 1)); try done. unfold char_start in *. lia.
Qed.

(** ** The lines of a row whose texts fit *)

Lemma blank_line_lookup (k : nat) :
  (1 ≤ k ≤ 63)%nat → blank_line !! k = Some SPACE.
Proof.
  intros Hk. unfold blank_line.
  rewrite lookup_app_r by (simpl; lia).
  rewrite lookup_app_l by (rewrite length_replicate; simpl; lia).
  apply lookup_replicate_2. simpl. lia.
Qed.

Lemma _render_row_fits g is_first :
  group_ok g → texts_fit g →
  ∃ name desc,
    _render_row g is_first
    = Ok ([row_border g is_first; name]
          ++ if any_description g then [desc] else [])
    ∧ (∀ k : nat, name !! k = match last_written name_writes g (Z.of_nat k) with
                              | Some c => Some c
                              | None => blank_line !! k
                              end)
    ∧ (∀ k : nat, desc !! k = match last_written desc_writes g (Z.of_nat k) with
                              | Some c => Some c
                              | None => blank_line !! k
                              end).
Proof.
  intros Hok Hfit. pose proof (group_ok_entries g Hok) as Hb.
  assert (Forall (λ e, (0 ≤ entry_start e ∧ entry_start e ≤ entry_end e + 1
                        ∧ entry_end e ≤ 31)
                       ∧ len (f_name (entry_field e)) ≤ entry_width e
                       ∧ len (description_or_empty (entry_field e)) ≤ entry_width e) g)
    as Hall.
  { apply Forall_and. split; [|exact Hfit].
    eapply Forall_impl; [exact Hb|]. simpl. intros e. lia. }
  destruct (for_in_last_written name_entry name_writes
              (λ e, (0 ≤ entry_start e ∧ entry_start e ≤ entry_end e + 1
                     ∧ entry_end e ≤ 31)
                    ∧ len (f_name (entry_field e)) ≤ entry_width e
                    ∧ len (description_or_empty (entry_field e)) ≤ entry_width e))
    with (g := g) (line := blank_line) as (name & Hn & _ & Hnl); [|done|done|].
  { intros [[f s] en] line ((H0 & H1 & H2) & H3 & _) Hl.
    by apply name_entry_fits. }
  destruct (for_in_last_written desc_entry desc_writes
              (λ e, (0 ≤ entry_start e ∧ entry_start e ≤ entry_end e + 1
                     ∧ entry_end e ≤ 31)
                    ∧ len (f_name (entry_field e)) ≤ entry_width e
                    ∧ len (description_or_empty (entry_field e)) ≤ entry_width e))
    with (g := g) (line := blank_line) as (desc & Hd & _ & Hdl); [|done|done|].
  { intros [[f s] en] line ((H0 & H1 & H2) & _ & H3) Hl.
    by apply desc_entry_fits. }
  exists name, desc. split; [|done].
  unfold _render_row. rewrite Hn. simpl.
  destruct (any_description g); [|done]. by rewrite Hd.
Qed.

(** *** The top border *)

Lemma is_boundary_spec g i :
  is_boundary g i = true ↔ ∃ e, e ∈ removelast g ∧ i = entry_end e * 2 + 2.
Proof.
  unfold is_boundary. rewrite existsb_exists. split.
  - intros ([[f s] en] & Hin & Hb). exists (f, s, en).
    apply list_elem_of_In in Hin. by apply bool_decide_eq_true_1 in Hb.
  - intros ([[f s] en] & Hin & ->). exists (f, s, en).
    split; [by apply list_elem_of_In|]. by apply bool_decide_eq_true_2.
Qed.

Lemma row_border_lookup g is_first (k : Z) :
  1 ≤ k ≤ 63 →
  row_border g is_first !! Z.to_nat k
  = Some (if is_boundary g (k - 1) then BOX_DH else BOX_H).
Proof.
  intros Hk. unfold row_border.
  rewrite lookup_app_r by (simpl; lia).
  rewrite lookup_app_l by (rewrite length_fmap, length_seqZ; simpl; lia).
  rewrite list_lookup_fmap, lookup_seqZ_lt by (simpl; lia). simpl.
  by replace (Z.of_nat (Z.to_nat k - 1)) with (k - 1) by lia.
Qed.

(** In a well-formed group every entry but the last ends before bit 31. *)
Lemma removelast_end g : ∀ start e,
  Forall (λ e, 0 < f_bits (entry_field e)) g → contiguous_from start g →
  start + group_bits g ≤ 32 → e ∈ removelast g →
  e ∈ g ∧ start ≤ entry_end e + 1 ∧ entry_end e < 31.
Proof.
  induction g as [|[[f s] en] g IH]; intros start e Hp Hc Hs Hin.
  - by apply elem_of_nil in Hin.
  - inversion Hp as [|? ? Hf Hg]; subst. destruct Hc as (-> & -> & Hc).
    rewrite group_bits_cons in Hs. unfold entry_field in Hf, Hs; simpl in Hf, Hs.
    destruct g as [|e1 g]; [by apply elem_of_nil in Hin|].
    change (removelast ((f, start, start + f_bits f - 1) :: e1 :: g))
      with ((f, start, start + f_bits f - 1) :: removelast (e1 :: g)) in Hin.
    apply elem_of_cons in Hin as [->|Hin].
    + split; [left|]. unfold entry_end; simpl.
      pose proof (group_bits_pos (e1 :: g) Hg ltac:(done)). lia.
    + destruct (IH _ e Hg Hc ltac:(lia) Hin) as (H1 & H2 & H3).
      split; [by right|]. lia.
Qed.

(** *** The separators of the name line *)

Lemma name_separator_kept g : ∀ start e,
  Forall (λ e, 0 < f_bits (entry_field e)) g → texts_fit g →
  contiguous_from start g → e ∈ g → entry_end e < 31 →
  last_written name_writes g (char_end (entry_end e)) = Some BOX_V.
Proof.
  induction g as [|[[f s] en] g IH]; intros start e Hp Hfit Hc Hin He.
  - by apply elem_of_nil in Hin.
  - inversion Hp as [|? ? Hf Hg]; subst. inversion Hfit as [|? ? _ Hfit']; subst.
    destruct Hc as (-> & -> & Hc). simpl.
    apply elem_of_cons in Hin as [->|Hin].
    + unfold entry_end in *; simpl in *.
      rewrite (last_written_none name_writes g).
      * by rewrite bool_decide_eq_true_2.
      * apply (contiguous_writes_none true g (start + f_bits f - 1 + 1)); try done.
        unfold char_start, char_end. lia.
    + by rewrite (IH _ e Hg Hfit' Hc Hin He).
Qed.

(** Away from the separator columns the name line shows the labels. *)
Lemma name_writes_labels g k :
  (∀ e, e ∈ g → entry_end e < 31 → k ≠ char_end (entry_end e)) →
  last_written name_writes g k = last_written label_writes g k.
Proof.
  induction g as [|[[f s] en] g IH]; intros Hk; [done|]. simpl.
  rewrite IH by (intros e He; apply Hk; by right).
  destruct (last_written label_writes g k); [done|].
  rewrite bool_decide_eq_false_2; [done|].
  intros [Hen ->]. by apply (Hk (f, s, en)); [left|..].
Qed.

(** C5, as stated, fails. A row holding one 16-bit field has a separator in
    its label line right after that field, the last of its row, and no
    junction in its top border; and in the row of the specification's
    example the junction above the separator of column 8 stands at column
    9. *)
Lemma separator_after_last_field :
  let port := mkField (of_ascii "Port") 16 None in
  row_packer [port] = [RowGroup [(port, 0, 15)] true]
  ∧ (∃ border name,
       _render_row [(port, 0, 15)] true = Ok [border; name]
       ∧ name !! 32%nat = Some BOX_V
       ∧ border = [BOX_DR] ++ replicate 63 BOX_H ++ [BOX_DL])
  ∧ (∃ border name,
       render_blocks (row_packer version_type_length) = Ok [border; name]
       ∧ name !! 8%nat = Some BOX_V ∧ border !! 8%nat = Some BOX_H
       ∧ border !! 9%nat = Some BOX_DH).
Proof.
  split; [vm_compute; reflexivity|]. split.
  - eexists _, _. split; [vm_compute; reflexivity|]. split; reflexivity.
  - eexists _, _. split; [vm_compute; reflexivity|]. repeat split; reflexivity.
Qed.

(** *** The separators of the description line *)

(** Whatever the description, the body of the description loop leaves a
    separator in column end * 2 + 3 of the line it returns. *)
Lemma desc_entry_writes_separator f s en line line' :
  length line = 65%nat → -1 ≤ en < 31 →
  desc_entry (f, s, en) line = Ok line' →
  line' !! Z.to_nat (en * 2 + 3) = Some BOX_V.
Proof.
  intros Hl Hen. unfold desc_entry.
  destruct (if truthy _ then _ else _) as [line1|] eqn:Hw; simpl; [|done].
  assert (length line1 = 65%nat) as Hl1.
  { destruct (truthy _); [|by simplify_eq].
    apply write_span_length in Hw. congruence. }
  rewrite !bool_decide_eq_true_2 by lia.
  rewrite setitem_in_range by (unfold len; lia).
  intros ?; simplify_eq. apply list_lookup_insert_eq. lia.
Qed.

(** The first column of the span of the entry that follows. *)
Lemma text_char_first text s en :
  len text ≤ span_width s en →
  text_char text s en (char_start s)
  = if bool_decide (0 < left_pad (span_width s en) text) then None else text !! 0%nat.
Proof.
  intros Hfit. destruct (left_pad_fits _ _ Hfit) as [Hp0 Hp1]. unfold text_char.
  destruct (decide (0 < left_pad (span_width s en) text)) as [Hpad|Hpad].
  - rewrite (bool_decide_eq_true_2 _ Hpad). rewrite bool_decide_eq_false_2 by lia. done.
  - rewrite (bool_decide_eq_false_2 _ Hpad).
    assert (left_pad (span_width s en) text = 0) as -> by lia.
    rewrite Z.add_0_r, Z.sub_diag.
    case_bool_decide as Hk; [done|].
    destruct text; [done|]. unfold len in Hk; simpl in Hk. lia.
Qed.

Lemma desc_separator_column g : ∀ start i e,
  Forall (λ e, 0 < f_bits (entry_field e)) g → texts_fit g →
  contiguous_from start g → g !! i = Some e → entry_end e < 31 →
  last_written desc_writes g (entry_end e * 2 + 3)
  = match g !! S i with
    | Some e' =>
        let desc := description_or_empty (entry_field e') in
        if bool_decide (0 < left_pad (entry_width e') desc) then Some BOX_V
        else match desc with [] => Some BOX_V | c :: _ => Some c end
    | None => Some BOX_V
    end.
Proof.
  induction g as [|[[f s] en] g IH]; intros start i e Hp Hfit Hc Hi He; [done|].
  inversion Hp as [|? ? Hf Hg]; subst. inversion Hfit as [|? ? _ Hfit']; subst.
  destruct Hc as (-> & -> & Hc).
  destruct i as [|i]; simpl in Hi.
  - simplify_eq. unfold entry_end in *; simpl in He |- *.
    set (en := start + f_bits f - 1) in *.
    destruct g as [|[[f1 s1] en1] g]; simpl.
    + by rewrite bool_decide_eq_true_2.
    + inversion Hg as [|? ? Hf1 Hg1]; subst.
      inversion Hfit' as [|? ? [_ Hd1] Hfit1]; subst.
      destruct Hc as (-> & Hen1 & Hc).
      unfold entry_field, entry_width, entry_start, entry_end in *; simpl in *.
      rewrite (last_written_none desc_writes g).
      2:{ apply (contiguous_writes_none false g (en1 + 1)); try done.
          unfold char_start. lia. }
      rewrite (bool_decide_eq_false_2 (en1 < 31 ∧ _)) by lia.
      replace (en * 2 + 3) with (char_start (en + 1)) by (unfold char_start; lia).
      rewrite text_char_first by done.
      case_bool_decide.
      * rewrite bool_decide_eq_true_2; [done|]. unfold char_start. lia.
      * destruct (description_or_empty f1); simpl; [|done].
        rewrite bool_decide_eq_true_2; [done|]. unfold char_start. lia.
  - simpl. rewrite (IH _ i e Hg Hfit' Hc Hi He).
    destruct (g !! S i) as [e'|]; [|done]. simpl.
    case_bool_decide; [done|]. by destruct (description_or_empty _).
Qed.

(** ** The theorems at concrete protocols *)

(** C10 at the specification's example, under the title "Header". *)
Lemma diagram_body_lines_65_witness :
  ∃ text body,
    generate_diagram (mkProtocol (Some (of_ascii "Header")) None None version_type_length)
    = Ok text
    ∧ render_blocks (row_packer version_type_length) = Ok body
    ∧ Forall (λ line, len line = 65) (body ++ [closing_border]).
Proof.
  eexists.
  destruct (diagram_body_lines_65
              (mkProtocol (Some (of_ascii "Header")) None None version_type_length) _
              eq_refl) as (body & Hb & _ & Hl).
  exists body. split; [reflexivity|]. split; [exact Hb | exact Hl].
Defined.

(** C4 at the three fields of 24, 16 and 24 bits: the 16-bit field does not
    fit behind the 24-bit one and starts a row of its own. *)
Lemma row_groups_well_formed_witness :
  Forall (λ f, 0 < f_bits f) straddling_fields
  ∧ (∀ g, g ∈ row_groups (row_packer straddling_fields) → group_bits g ≤ 32)
  ∧ entry_field <$> concat (row_groups (row_packer straddling_fields))
    = filter (λ f, f_bits f ≤ 32) straddling_fields
  ∧ rows_so_far (pack_from pack_init (take 2 straddling_fields))
    = [[(mkField (of_ascii "Label") 24 None, 0, 23)];
       [(mkField (of_ascii "Port") 16 None, 0, 15)]].
Proof.
  assert (Forall (λ f, 0 < f_bits f) straddling_fields) as Hpos
    by (repeat constructor).
  destruct (row_groups_well_formed straddling_fields Hpos) as (Hg & Hf & Hover).
  split; [exact Hpos|]. split; [intros g Hin; apply (Hg g Hin)|].
  split; [exact Hf|].
  apply (Hover [mkField (of_ascii "Label") 24 None] (mkField (of_ascii "Port") 16 None)
           [mkField (of_ascii "Nonce") 24 None]); [reflexivity| |reflexivity].
  vm_compute. discriminate.
Defined.

(** C1 at four fields of 8, 8, 16 and 32 bits. *)
Lemma aligned_fields_fill_rows_witness :
  let fields := [mkField (of_ascii "Kind") 8 None; mkField (of_ascii "Code") 8 None;
                 mkField (of_ascii "Checksum") 16 None;
                 mkField (of_ascii "Sequence") 32 None] in
  len (row_groups (row_packer fields)) = 2
  ∧ Forall (λ g, group_bits g = 32) (row_groups (row_packer fields)).
Proof.
  intros fields.
  destruct (aligned_fields_fill_rows fields) as (_ & Hn & _ & Hfull).
  - repeat constructor; vm_compute; discriminate.
  - reflexivity.
  - repeat split; vm_compute; discriminate.
  - split; [exact Hn | exact Hfull].
Defined.

(** C2 at a 48-bit field followed by an 8-bit field. *)
Lemma wide_field_blocks_witness :
  wide_fields (row_packer [address_field; flags_field]) = [address_field]
  ∧ cursor (pack_body address_field pack_init) = 48
  ∧ rows_so_far (pack_body flags_field (pack_body address_field pack_init))
    = [[(flags_field, 16, 23)]].
Proof.
  destruct (wide_field_blocks [address_field; flags_field]) as (_ & Hw & Hstep).
  split; [exact Hw|].
  destruct (Hstep [] address_field [flags_field] eq_refl) as (_ & _ & _ & _ & Hc & _ & Hnext).
  { vm_compute. reflexivity. }
  split; [exact Hc|].
  apply (Hnext flags_field); vm_compute; discriminate.
Defined.

(** * Further properties of the packer *)

Lemma pack_from_snoc ps fields field :
  pack_from ps (fields ++ [field]) = pack_body field (pack_from ps fields).
Proof. unfold pack_from. by rewrite foldl_app. Qed.

(** Whatever the widths, an open row means the cursor is inside a row. *)
Lemma pack_body_open field ps :
  pending (pack_body field ps) ≠ [] → cursor (pack_body field ps) `mod` 32 ≠ 0.
Proof.
  destruct (decide (f_bits field ≤ 32)) as [Hn|Hw].
  - destruct (decide (cursor ps `mod` 32 + f_bits field ≤ 32)) as [Hf|Ho].
    + rewrite pack_body_fits by done. cbv zeta. simpl. by case_bool_decide.
    + rewrite pack_body_overflow by lia. cbv zeta. simpl. by case_bool_decide.
  - rewrite pack_body_wide by lia. done.
Qed.

Lemma pack_from_open fields :
  pending (pack_from pack_init fields) ≠ [] →
  cursor (pack_from pack_init fields) `mod` 32 ≠ 0.
Proof.
  destruct fields as [|f fields _] using rev_ind; [done|].
  rewrite pack_from_snoc. apply pack_body_open.
Qed.

Lemma pack_body_blocks_prefix field ps :
  ∃ new, blocks (pack_body field ps) = blocks ps ++ new.
Proof.
  destruct (decide (f_bits field ≤ 32)) as [Hn|Hw].
  - destruct (decide (cursor ps `mod` 32 + f_bits field ≤ 32)) as [Hf|Ho].
    + rewrite pack_body_fits by done. cbv zeta. simpl.
      case_bool_decide; simpl; eexists; [done|by rewrite app_nil_r].
    + rewrite pack_body_overflow by lia. cbv zeta. simpl.
      case_bool_decide; simpl; rewrite pack_if_pending_blocks;
        eexists; rewrite <- ?app_assoc; done.
  - rewrite pack_body_wide by lia. cbv zeta. simpl.
    rewrite pack_if_pending_blocks. eexists. by rewrite <- app_assoc.
Qed.

Lemma pack_from_blocks_prefix fields : ∀ ps,
  ∃ new, blocks (pack_from ps fields) = blocks ps ++ new.
Proof.
  induction fields as [|f fields IH]; intros ps; simpl.
  - exists []. by rewrite app_nil_r.
  - destruct (IH (pack_body f ps)) as [new2 H2].
    destruct (pack_body_blocks_prefix f ps) as [new1 H1].
    exists (new1 ++ new2). unfold pack_from in *. simpl.
    by rewrite H2, H1, app_assoc.
Qed.

Lemma row_packer_blocks_prefix pre post :
  ∃ new, row_packer (pre ++ post) = blocks (pack_from pack_init pre) ++ new.
Proof.
  unfold row_packer. rewrite pack_from_app, pack_if_pending_blocks.
  destruct (pack_from_blocks_prefix post (pack_from pack_init pre)) as [new Hn].
  rewrite Hn. eexists. by rewrite <- app_assoc.
Qed.

(** X1. A field of exactly 32 bits gets a row to itself, whatever stands
    before or after it and whatever the other widths are: the loop closes
    the open row, if any, places the field alone at bits 0..31, and closes
    that row at once, so the row group is in the packer's output. *)
Theorem full_width_field_own_row (pre post : list Field) (f : Field) :
  f_bits f = 32 →
  let ps := pack_from pack_init pre in
  rows_so_far (pack_body f ps) = rows_so_far ps ++ [[(f, 0, 31)]]
  ∧ pending (pack_body f ps) = []
  ∧ [(f, 0, 31)] ∈ row_groups (row_packer (pre ++ f :: post)).
Proof.
  intros Hb ps.
  assert (rows_so_far (pack_body f ps) = rows_so_far ps ++ [[(f, 0, 31)]]
          ∧ pending (pack_body f ps) = []) as [Hrows Hpend].
  { pose proof (pack_from_open pre) as Hopen. fold ps in Hopen.
    destruct (decide (cursor ps `mod` 32 = 0)) as [Ha|Ha].
    - assert (pending ps = []) as Hp.
      { destruct (pending ps) eqn:Hp; [done|]. exfalso. by apply Hopen. }
      rewrite pack_body_fits by lia. cbv zeta. simpl.
      rewrite bool_decide_eq_true_2 by (revert Ha; Z.div_mod_to_equations; lia).
      split; [|done].
      rewrite !rows_so_far_eq. simpl. rewrite row_groups_app, Hp, Ha, Hb. simpl.
      by rewrite !app_nil_r.
    - pose proof (Z.mod_pos_bound (cursor ps) 32 ltac:(lia)).
      rewrite rows_so_far_overflow by lia. rewrite Hb.
      split; [done|].
      rewrite pack_body_overflow by lia. cbv zeta. simpl.
      pose proof (next_row_aligned (cursor ps)) as Hal.
      rewrite bool_decide_eq_true_2; [done|].
      revert Hal. generalize (next_row (cursor ps)). intros c Hc.
      rewrite Hb. Z.div_mod_to_equations. lia. }
  split; [done|]. split; [done|].
  destruct (row_packer_blocks_prefix (pre ++ [f]) post) as [new Hnew].
  rewrite <- app_assoc in Hnew. simpl in Hnew. rewrite Hnew.
  rewrite pack_from_snoc. fold ps. rewrite row_groups_app.
  apply elem_of_app. left.
  assert (rows_so_far (pack_body f ps) = row_groups (blocks (pack_body f ps))) as Hr.
  { rewrite rows_so_far_eq, Hpend. by rewrite app_nil_r. }
  rewrite <- Hr, Hrows. apply elem_of_app. right. by left.
Qed.

Lemma full_width_field_own_row_witness :
  let word := mkField (of_ascii "Word") 32 None in
  [(word, 0, 31)] ∈ row_groups (row_packer ([flags_field] ++ word :: [flags_field])).
Proof.
  intros word.
  exact (proj2 (proj2 (full_width_field_own_row [flags_field] [flags_field] word eq_refl))).
Defined.

(** The fields of the blocks, in order. *)
Lemma pack_body_block_fields field ps :
  mjoin (block_fields <$> blocks (pack_body field ps))
  ++ (entry_field <$> pending (pack_body field ps))
  = (mjoin (block_fields <$> blocks ps) ++ (entry_field <$> pending ps)) ++ [field].
Proof.
  assert (∀ ps, mjoin (block_fields <$> blocks (pack_if_pending ps))
                = mjoin (block_fields <$> blocks ps) ++ (entry_field <$> pending ps))
    as Hflush.
  { intros ps'. rewrite pack_if_pending_blocks, fmap_app, join_app.
    destruct (pending ps'); simpl; by rewrite ?app_nil_r. }
  destruct (decide (f_bits field ≤ 32)) as [Hn|Hw].
  - destruct (decide (cursor ps `mod` 32 + f_bits field ≤ 32)) as [Hf|Ho].
    + rewrite pack_body_fits by done. cbv zeta. simpl.
      case_bool_decide; simpl; rewrite ?fmap_app, ?join_app; simpl;
        rewrite ?app_nil_r, ?fmap_app, ?app_assoc; done.
    + rewrite pack_body_overflow by lia. cbv zeta. simpl.
      case_bool_decide; simpl; rewrite ?fmap_app, ?join_app, ?Hflush; simpl;
        rewrite ?app_nil_r, ?app_assoc; done.
  - rewrite pack_body_wide by lia. cbv zeta. simpl.
    rewrite fmap_app, join_app, Hflush. simpl. by rewrite !app_nil_r.
Qed.

Lemma row_packer_block_fields (fields : list Field) :
  mjoin (block_fields <$> row_packer fields) = fields.
Proof.
  unfold row_packer.
  assert (∀ ps, mjoin (block_fields <$> blocks (pack_if_pending ps))
                = mjoin (block_fields <$> blocks ps) ++ (entry_field <$> pending ps))
    as ->.
  { intros ps'. rewrite pack_if_pending_blocks, fmap_app, join_app.
    destruct (pending ps'); simpl; by rewrite ?app_nil_r. }
  induction fields as [|f fields IH] using rev_ind; [done|].
  by rewrite pack_from_snoc, pack_body_block_fields, IH.
Qed.

(** X2. The blocks show every field of the input exactly once and in the
    order of the input, wide blocks and row groups interleaved as the
    fields are: nothing is dropped, repeated or reordered, whatever the
    widths. *)
Theorem row_packer_keeps_fields (fields : list Field) :
  mjoin (block_fields <$> row_packer fields) = fields.
Proof. apply row_packer_block_fields. Qed.

(** The [is_first] flags of the blocks emitted so far. *)
Lemma pack_body_first field ps :
  (∀ i b, blocks ps !! i = Some b → block_first b = bool_decide (i = 0%nat)) →
  first ps = bool_decide (blocks ps = []) →
  (∀ i b, blocks (pack_body field ps) !! i = Some b →
     block_first b = bool_decide (i = 0%nat))
  ∧ first (pack_body field ps) = bool_decide (blocks (pack_body field ps) = []).
Proof.
  intros Hflags Hfirst.
  assert (∀ bs fst b0,
            (∀ i b, bs !! i = Some b → block_first b = bool_decide (i = 0%nat)) →
            fst = bool_decide (bs = []) → block_first b0 = fst →
            (∀ i b, (bs ++ [b0]) !! i = Some b → block_first b = bool_decide (i = 0%nat))
            ∧ false = bool_decide (bs ++ [b0] = [])) as Hsnoc.
  { intros bs fst b0 Hbs Hfst Hb0. split.
    - intros i b Hi. apply lookup_snoc_Some in Hi as [[_ Hi]|[-> <-]]; [eauto|].
      rewrite Hb0, Hfst. by destruct bs.
    - rewrite bool_decide_eq_false_2; [done|]. by destruct bs. }
  assert ((∀ i b, blocks (pack_if_pending ps) !! i = Some b →
             block_first b = bool_decide (i = 0%nat))
          ∧ first (pack_if_pending ps) = bool_decide (blocks (pack_if_pending ps) = []))
    as [Hflags1 Hfirst1].
  { unfold pack_if_pending. destruct (pending ps); [by split|].
    simpl. by apply (Hsnoc _ (first ps)). }
  destruct (decide (f_bits field ≤ 32)) as [Hn|Hw].
  - destruct (decide (cursor ps `mod` 32 + f_bits field ≤ 32)) as [Hf|Ho].
    + rewrite pack_body_fits by done. cbv zeta. simpl.
      match goal with |- context [if ?c then _ else _] => destruct c end;
        simpl; [|by split].
      by apply (Hsnoc _ (first ps)).
    + rewrite pack_body_overflow by lia. cbv zeta. simpl.
      match goal with |- context [if ?c then _ else _] => destruct c end;
        simpl; [|by split].
      by apply (Hsnoc _ (first (pack_if_pending ps))).
  - rewrite pack_body_wide by lia. cbv zeta. simpl.
    by apply (Hsnoc _ (first (pack_if_pending ps))).
Qed.

(** X3. Exactly the first block of a diagram is rendered with
    [is_first = True], be it a row or a wide block: the opening border
    is drawn once, every later block gets a separating border. *)
Theorem only_first_block_opens (fields : list Field) (i : nat) (b : block) :
  row_packer fields !! i = Some b → block_first b = bool_decide (i = 0%nat).
Proof.
  assert ((∀ i b, blocks (pack_from pack_init fields) !! i = Some b →
             block_first b = bool_decide (i = 0%nat))
          ∧ first (pack_from pack_init fields)
            = bool_decide (blocks (pack_from pack_init fields) = [])) as [Hflags Hfirst].
  { induction fields as [|f fields IH] using rev_ind; [done|].
    rewrite pack_from_snoc. destruct IH as [IH1 IH2]. by apply pack_body_first. }
  unfold row_packer, pack_if_pending.
  destruct (pending (pack_from pack_init fields)); [apply Hflags|].
  simpl. intros Hi. apply lookup_snoc_Some in Hi as [[_ Hi]|[-> <-]]; [eauto|].
  simpl. rewrite Hfirst.
  by destruct (blocks (pack_from pack_init fields)).
Qed.

Lemma only_first_block_opens_witness :
  block_first (RowGroup [(flags_field, 16, 23)] false) = false.
Proof.
  exact (only_first_block_opens [address_field; flags_field] 1
           (RowGroup [(flags_field, 16, 23)] false) eq_refl).
Defined.

(** * Further properties of the renderers *)

(** ** When a write loop raises *)

Lemma setitem_wraps {A} (l : list A) i v :
  - len l ≤ i < len l → ∃ l', setitem l i v = Ok l' ∧ length l' = length l.
Proof.
  intros Hi. unfold setitem. case_bool_decide.
  - eexists. split; [done|]. by rewrite length_insert.
  - rewrite bool_decide_eq_true_2 by lia.
    eexists. split; [done|]. by rewrite length_insert.
Qed.

Lemma setitem_below {A} (l : list A) i v :
  i < - len l → setitem l i v = Raise IndexError.
Proof.
  intros Hi. unfold setitem, len in *.
  rewrite !bool_decide_eq_false_2 by lia. done.
Qed.

Lemma for_enumerate_ext {A S} (body1 body2 : Z → A → S → result S) xs :
  (∀ i x s, body1 i x s = body2 i x s) →
  ∀ i s, for_enumerate i xs body1 s = for_enumerate i xs body2 s.
Proof.
  intros Hext. induction xs as [|x xs IH]; intros i s; simpl; [done|].
  rewrite Hext. destruct (body2 i x s); simpl; [apply IH|done].
Qed.

(** A guarded loop whose guard keeps the positions below the length of the
    line returns as soon as its first position is not below minus the
    length. *)
Lemma for_enumerate_guarded (guard : Z → bool) (base : Z) (text : str) :
  ∀ (i : Z) (line : str),
  (∀ pos, guard pos = true → pos < len line) → - len line ≤ base + i →
  ∃ line',
    for_enumerate i text
      (λ i ch line, if guard (base + i) then setitem line (base + i) ch else Ok line)
      line = Ok line'
    ∧ length line' = length line.
Proof.
  induction text as [|ch text IH]; intros i line Hg Hlo; simpl.
  - by exists line.
  - assert (∃ line1, (if guard (base + i) then setitem line (base + i) ch else Ok line)
                     = Ok line1 ∧ length line1 = length line) as (line1 & -> & Hl1).
    { destruct (guard (base + i)) eqn:Hgi; [|by exists line].
      apply setitem_wraps. specialize (Hg _ Hgi). lia. }
    simpl. destruct (IH (i + 1) line1) as (line' & Hrun & Hl').
    { unfold len in *. by rewrite Hl1. } { unfold len in *. rewrite Hl1. lia. }
    exists line'. split; [done|]. congruence.
Qed.

Lemma for_enumerate_first_raises (guard : Z → bool) (base : Z) (ch : char)
    (text : str) (i : Z) (line : str) :
  guard (base + i) = true → base + i < - len line →
  for_enumerate i (ch :: text)
    (λ i ch line, if guard (base + i) then setitem line (base + i) ch else Ok line)
    line = Raise IndexError.
Proof. intros Hg Hlo. simpl. rewrite Hg, setitem_below by done. done. Qed.

Lemma write_span_result text s en line :
  length line = 65%nat → -1 ≤ en →
  if span_raises text s en then write_span text s en line = Raise IndexError
  else ∃ line', write_span text s en line = Ok line' ∧ length line' = 65%nat.
Proof.
  intros Hl Hen. unfold span_raises, write_span.
  destruct text as [|ch text]; [by exists line|]. simpl truthy. cbv iota beta.
  rewrite andb_true_l. case_bool_decide as Hpos.
  - pose proof (for_enumerate_first_raises
             (λ pos, bool_decide (pos < char_end en) && bool_decide (pos < 64))
             (char_start s + left_pad (span_width s en) (ch :: text))
             ch text 0 line) as Hr.
    apply Hr.
    + rewrite !bool_decide_eq_true_2; [done| |]; unfold char_end; lia.
    + unfold len. rewrite Hl. lia.
  - destruct (for_enumerate_guarded
                (λ pos, bool_decide (pos < char_end en) && bool_decide (pos < 64))
                (char_start s + left_pad (span_width s en) (ch :: text)) (ch :: text)
                0 line) as (line' & Hrun & Hl').
    + intros pos Hg. apply andb_true_iff in Hg as [_ Hg].
      apply bool_decide_eq_true_1 in Hg. unfold len. rewrite Hl. lia.
    + unfold len. rewrite Hl. lia.
    + exists line'. split; [exact Hrun|congruence].
Qed.

Lemma write_wide_result text line :
  length line = 65%nat →
  if bool_decide (196 ≤ len text) then write_wide text line = Raise IndexError
  else ∃ line', write_wide text line = Ok line' ∧ length line' = 65%nat.
Proof.
  intros Hl. unfold write_wide.
  rewrite (for_enumerate_ext _
             (λ i ch line,
                if (λ pos, bool_decide (pos < 64)) (left_pad 63 text + 1 + i)
                then setitem line (left_pad 63 text + 1 + i) ch else Ok line)).
  2:{ intros i x l. cbv beta. by replace (left_pad 63 text + i + 1)
        with (left_pad 63 text + 1 + i) by lia. }
  pose proof (left_pad_floor 63 text) as Hf.
  case_bool_decide as Hlen.
  - destruct text as [|ch text]; [unfold len in Hlen; simpl in Hlen; lia|].
    pose proof (for_enumerate_first_raises (λ pos, bool_decide (pos < 64))
                  (left_pad 63 (ch :: text) + 1) ch text 0 line) as Hr.
    apply Hr.
    + apply bool_decide_eq_true_2. lia.
    + unfold len in *. rewrite Hl. lia.
  - destruct (for_enumerate_guarded (λ pos, bool_decide (pos < 64))
                (left_pad 63 text + 1) text 0 line) as (line' & Hrun & Hl').
    + intros pos Hg. apply bool_decide_eq_true_1 in Hg. unfold len. rewrite Hl. lia.
    + unfold len in *. rewrite Hl. lia.
    + exists line'. split; [exact Hrun|congruence].
Qed.

Lemma truthy_description f : truthy (description_or_empty f) = has_description f.
Proof. unfold description_or_empty, has_description. by destruct (f_description f). Qed.

Lemma name_entry_result f s en line :
  length line = 65%nat → -1 ≤ en →
  if span_raises (f_name f) s en then name_entry (f, s, en) line = Raise IndexError
  else ∃ line', name_entry (f, s, en) line = Ok line' ∧ length line' = 65%nat.
Proof.
  intros Hl Hen. unfold name_entry.
  pose proof (write_span_result (f_name f) s en line Hl Hen) as Hw.
  destruct (span_raises (f_name f) s en); [by rewrite Hw|].
  destruct Hw as (line1 & -> & Hl1). simpl.
  destruct (_ && _) eqn:Hsep; [|by exists line1].
  apply andb_true_iff in Hsep as [H1 H2].
  apply bool_decide_eq_true_1 in H1, H2.
  destruct (setitem_wraps line1 (char_end en) BOX_V) as (line' & -> & Hl').
  { unfold len, char_end in *. lia. }
  exists line'. split; [done|congruence].
Qed.

Lemma desc_entry_result f s en line :
  length line = 65%nat → -1 ≤ en →
  if span_raises (description_or_empty f) s en
  then desc_entry (f, s, en) line = Raise IndexError
  else ∃ line', desc_entry (f, s, en) line = Ok line' ∧ length line' = 65%nat.
Proof.
  intros Hl Hen. unfold desc_entry.
  pose proof (write_span_result (description_or_empty f) s en line Hl Hen) as Hw.
  unfold span_raises in *.
  destruct (truthy (description_or_empty f)) eqn:Ht; simpl in *.
  - destruct (bool_decide _); [by rewrite Hw|].
    destruct Hw as (line1 & -> & Hl1). simpl.
    repeat case_bool_decide; try by exists line1.
    destruct (setitem_wraps line1 (en * 2 + 3) BOX_V) as (line' & -> & Hl').
    { unfold len. lia. }
    exists line'. split; [done|congruence].
  - repeat case_bool_decide; try by exists line.
    destruct (setitem_wraps line (en * 2 + 3) BOX_V) as (line' & -> & Hl').
    { unfold len. lia. }
    exists line'. split; [done|congruence].
Qed.

Lemma for_in_result (body : row_entry → str → result str) (raises : row_entry → bool)
    (ok : row_entry → Prop) :
  (∀ e line, ok e → length line = 65%nat →
     if raises e then body e line = Raise IndexError
     else ∃ line', body e line = Ok line' ∧ length line' = 65%nat) →
  ∀ g line, Forall ok g → length line = 65%nat →
  if existsb raises g then for_in g body line = Raise IndexError
  else ∃ line', for_in g body line = Ok line' ∧ length line' = 65%nat.
Proof.
  intros Hbody. induction g as [|e g IH]; intros line Hok Hl; simpl.
  - by exists line.
  - inversion Hok as [|? ? He Hg]; subst.
    pose proof (Hbody e line He Hl) as Hb.
    destruct (raises e); simpl; [by rewrite Hb|].
    destruct Hb as (line1 & -> & Hl1). simpl. by apply IH.
Qed.

Lemma _render_row_result g is_first :
  Forall (λ e, -1 ≤ entry_end e) g →
  if existsb entry_raises g then _render_row g is_first = Raise IndexError
  else ∃ rendered, _render_row g is_first = Ok rendered.
Proof.
  intros Hg. unfold _render_row.
  pose proof (for_in_result name_entry name_raises (λ e, -1 ≤ entry_end e)) as Hn.
  pose proof (for_in_result desc_entry desc_raises (λ e, -1 ≤ entry_end e)) as Hd.
  specialize (Hn ltac:(intros [[f s] en] line He Hl; by apply name_entry_result)
                g blank_line Hg eq_refl).
  specialize (Hd ltac:(intros [[f s] en] line He Hl; by apply desc_entry_result)
                g blank_line Hg eq_refl).
  assert (existsb entry_raises g = existsb name_raises g || existsb desc_raises g) as ->.
  { clear. induction g as [|e g IH]; [done|]. simpl. rewrite IH. unfold entry_raises.
    destruct (name_raises e), (desc_raises e), (existsb name_raises g),
      (existsb desc_raises g); done. }
  destruct (existsb name_raises g); simpl; [by rewrite Hn|].
  destruct Hn as (name & -> & _). simpl.
  destruct (existsb desc_raises g) eqn:Hraise.
  - assert (any_description g = true) as ->.
    { apply existsb_exists in Hraise as ([[f s] en] & Hin & Hr).
      apply existsb_exists. exists (f, s, en). split; [done|].
      unfold desc_raises, span_raises in Hr. apply andb_true_iff in Hr as [Ht _].
      by rewrite <- truthy_description. }
    by rewrite Hd.
  - destruct (any_description g); [|by eexists].
    destruct Hd as (desc & -> & _). by eexists.
Qed.

Lemma _render_wide_field_result f is_first :
  if bool_decide (196 ≤ len (f_name f)) || bool_decide (196 ≤ len (description_or_empty f))
  then _render_wide_field f is_first = Raise IndexError
  else ∃ rendered, _render_wide_field f is_first = Ok rendered.
Proof.
  unfold _render_wide_field.
  pose proof (write_wide_result (f_name f) blank_line eq_refl) as Hn.
  pose proof (write_wide_result (description_or_empty f) blank_line eq_refl) as Hd.
  destruct (bool_decide (196 ≤ len (f_name f))); simpl; [by rewrite Hn|].
  destruct Hn as (name & -> & _). simpl.
  destruct (bool_decide (196 ≤ len (description_or_empty f))) eqn:Hlen.
  - assert (has_description f = true) as ->.
    { rewrite <- truthy_description. apply bool_decide_eq_true_1 in Hlen.
      destruct (description_or_empty f); [unfold len in Hlen; simpl in Hlen; lia|done]. }
    by rewrite Hd.
  - destruct (has_description f); [|by eexists].
    destruct Hd as (desc & -> & _). by eexists.
Qed.

(** X4. [_render_wide_field] raises IndexError exactly when the name or the
    description of the field has 196 characters or more (the first character
    then falls left of index -65 of the 65-character line); with shorter
    texts it returns. *)
Theorem wide_field_raises_from_196 (f : Field) (is_first : bool) :
  _render_wide_field f is_first = Raise IndexError
  ↔ 196 ≤ len (f_name f) ∨ 196 ≤ len (description_or_empty f).
Proof.
  pose proof (_render_wide_field_result f is_first) as Hr.
  destruct (bool_decide (196 ≤ len (f_name f))) eqn:Hn;
    destruct (bool_decide (196 ≤ len (description_or_empty f))) eqn:Hd; simpl in Hr.
  - apply bool_decide_eq_true_1 in Hn. tauto.
  - apply bool_decide_eq_true_1 in Hn. tauto.
  - apply bool_decide_eq_true_1 in Hd. tauto.
  - apply bool_decide_eq_false_1 in Hn, Hd. destruct Hr as [rendered Hr].
    rewrite Hr. split; [done|]. tauto.
Qed.

(** X5. For a row whose entries end at bit -1 or later, [_render_row]
    raises IndexError exactly when the row has an entry whose label or whose
    non-empty description is so much longer than its span that its first
    character falls left of index -65 of the line
    (char_start + (width - len(text)) // 2 < -65); otherwise it returns. *)
Theorem row_raises_exactly (g : list row_entry) (is_first : bool) :
  Forall (λ e, -1 ≤ entry_end e) g →
  (_render_row g is_first = Raise IndexError ↔ ∃ e, e ∈ g ∧ entry_raises e = true).
Proof.
  intros Hg. pose proof (_render_row_result g is_first Hg) as Hr.
  destruct (existsb entry_raises g) eqn:He.
  - split; [|done]. intros _. apply existsb_exists in He as (e & Hin & Hre).
    exists e. split; [by apply list_elem_of_In|done].
  - destruct Hr as [rendered Hr]. rewrite Hr. split; [done|].
    intros (e & Hin & Hre). exfalso.
    assert (existsb entry_raises g = true); [|congruence].
    apply existsb_exists. exists e. split; [by apply list_elem_of_In|done].
Qed.

Lemma row_raises_exactly_witness :
  _render_row [(mkField (replicate 140 65%N) 4 None, 0, 3)] true = Raise IndexError.
Proof.
  apply (row_raises_exactly [(mkField (replicate 140 65%N) 4 None, 0, 3)] true).
  - repeat constructor. vm_compute. discriminate.
  - eexists. split; [left|]. vm_compute. reflexivity.
Defined.

(** ** A wide block whose texts fit *)

Lemma lookup_splice {A} (l t : list A) (n k : nat) :
  (n + length t ≤ length l)%nat →
  (take n l ++ t ++ drop (n + length t) l) !! k
  = if bool_decide (n ≤ k < n + length t)%nat then t !! (k - n)%nat else l !! k.
Proof.
  intros Hn. assert (length (take n l) = n) as Hlt by (rewrite length_take; lia).
  destruct (decide (k < n)%nat) as [Hk|Hk].
  - rewrite bool_decide_eq_false_2 by lia.
    rewrite lookup_app_l by lia. by rewrite lookup_take_lt.
  - rewrite lookup_app_r by lia. rewrite Hlt.
    destruct (decide (k < n + length t)%nat) as [Hk2|Hk2].
    + rewrite bool_decide_eq_true_2 by lia. by rewrite lookup_app_l by lia.
    + rewrite bool_decide_eq_false_2 by lia.
      rewrite lookup_app_r by lia. rewrite lookup_drop. f_equal. lia.
Qed.

Lemma write_wide_centered text :
  len text ≤ 63 → write_wide text blank_line = Ok (centered_line text).
Proof.
  intros Hfit. destruct (left_pad_fits 63 text Hfit) as [Hp0 Hp1].
  unfold write_wide.
  rewrite (for_enumerate_ext _
             (λ i ch line,
                if (λ pos, bool_decide (pos < 64)) (left_pad 63 text + 1 + i)
                then setitem line (left_pad 63 text + 1 + i) ch else Ok line)).
  2:{ intros i x l. cbv beta. by replace (left_pad 63 text + i + 1)
        with (left_pad 63 text + 1 + i) by lia. }
  destruct (for_enumerate_write (λ pos, bool_decide (pos < 64))
              (left_pad 63 text + 1) text 0 blank_line) as (line' & -> & Hl & Hlook).
  { lia. } { unfold len in *. rewrite blank_line_length. lia. }
  { intros j Hj. apply bool_decide_eq_true_2. lia. }
  f_equal. apply list_eq. intros k. rewrite Hlook.
  set (n := Z.to_nat (left_pad 63 text)).
  assert (centered_line text
          = take (S n) blank_line ++ text ++ drop (S n + length text) blank_line) as ->.
  { unfold centered_line, blank_line, right_pad. fold n.
    change (take (S n) ([BOX_V] ++ replicate 63 SPACE ++ [BOX_V]))
      with (BOX_V :: take n (replicate 63 SPACE ++ [BOX_V])).
    change (drop (S n + length text) ([BOX_V] ++ replicate 63 SPACE ++ [BOX_V]))
      with (drop (n + length text) (replicate 63 SPACE ++ [BOX_V])).
    rewrite take_app_le by (rewrite length_replicate; unfold len in *; lia).
    rewrite take_replicate.
    rewrite drop_app_le by (rewrite length_replicate; unfold len in *; lia).
    rewrite drop_replicate.
    replace (n `min` 63)%nat with n by (unfold len in *; lia).
    replace (Z.to_nat (63 - len text - left_pad 63 text))
      with (63 - (n + length text))%nat by (unfold len in *; lia).
    done. }
  rewrite lookup_splice by (rewrite blank_line_length; unfold len in *; lia).
  unfold len in *.
  destruct (decide (S n ≤ k < S n + length text)%nat) as [Hk|Hk].
  - rewrite !bool_decide_eq_true_2 by lia. f_equal. lia.
  - rewrite !bool_decide_eq_false_2 by lia. done.
Qed.

(** X6. A wide field whose name and description have at most 63 characters
    is rendered without raising as a full-width border (opening for the
    first block, separating otherwise), a line with the name centered
    between the two borders and, when the field has a non-empty description,
    a line with the description centered the same way; there is no interior
    separator, and the bit width of the field does not show. *)
Theorem wide_field_centered (f : Field) (is_first : bool) :
  len (f_name f) ≤ 63 → len (description_or_empty f) ≤ 63 →
  _render_wide_field f is_first
  = Ok ([[if is_first then BOX_DR else BOX_VR] ++ replicate 63 BOX_H
           ++ [if is_first then BOX_DL else BOX_VL];
         centered_line (f_name f)]
        ++ if has_description f then [centered_line (description_or_empty f)] else []).
Proof.
  intros Hn Hd. unfold _render_wide_field.
  rewrite (write_wide_centered _ Hn). simpl.
  destruct (has_description f); [rewrite (write_wide_centered _ Hd)|];
    by destruct is_first.
Qed.

(** The specification's example: one field "Options" of 64 bits. *)
Lemma wide_field_centered_witness :
  _render_wide_field (mkField (of_ascii "Options") 64 None) true
  = Ok [ [BOX_DR] ++ replicate 63 BOX_H ++ [BOX_DL];
         [BOX_V] ++ replicate 28 SPACE ++ of_ascii "Options" ++ replicate 28 SPACE
           ++ [BOX_V] ].
Proof.
  apply (wide_field_centered (mkField (of_ascii "Options") 64 None) true);
    vm_compute; discriminate.
Defined.

(** * Further properties of [generate_diagram] *)

(** X7. The diagram is the newline-joined list of the title lines, the two
    ruler lines, the renderings of the packer's blocks in order, the closing
    border and the note lines; [generate_diagram] raises exactly when the
    rendering of one of the blocks raises, and no output is produced
    then. *)
Theorem generate_diagram_renders_blocks (protocol : Protocol) :
  generate_diagram protocol =
  match render_blocks (row_packer (p_fields protocol)) with
  | Ok body =>
      Ok (join [NEWLINE]
            (title_lines protocol ++ [ruler_tens; ruler_units] ++ body
             ++ [closing_border] ++ note_lines protocol))
  | Raise e => Raise e
  end.
Proof.
  unfold generate_diagram. rewrite diagram_lines_row_packer.
  by destruct (render_blocks _).
Qed.

Lemma render_block_lines b rendered :
  render_block b = Ok rendered → length rendered = block_lines b.
Proof.
  destruct b as [g fst|f fst]; simpl.
  - unfold _render_row. destruct (for_in g name_entry blank_line); simpl; [|done].
    destruct (any_description g); [|by intros ?; simplify_eq].
    destruct (for_in g desc_entry blank_line); simpl; [|done]. by intros ?; simplify_eq.
  - unfold _render_wide_field. destruct (write_wide (f_name f) blank_line); simpl; [|done].
    destruct (has_description f); [|by intros ?; simplify_eq; destruct fst].
    destruct (write_wide _ blank_line); simpl; [|done].
    by intros ?; simplify_eq; destruct fst.
Qed.

Lemma render_blocks_lines bs : ∀ body,
  render_blocks bs = Ok body → length body = sum_list (block_lines <$> bs).
Proof.
  induction bs as [|b bs IH]; intros body; simpl.
  - by intros ?; simplify_eq.
  - destruct (render_block b) as [r|] eqn:Hb; simpl; [|done].
    destruct (render_blocks bs) as [rest|]; simpl; [|done].
    intros ?; simplify_eq. rewrite length_app, (render_block_lines b r Hb).
    by rewrite (IH rest).
Qed.

(** X8. When [generate_diagram] returns, the number of lines it joins is
    2 for the title when the protocol has a name and 0 otherwise, plus the 2
    ruler lines, plus 2 lines for every block and 1 more for every block
    that has a description (a row in which some field has a non-empty
    description, a wide field with one), plus 1 for the closing border, plus
    2 for the note when the protocol has a total note and 0 otherwise. *)
Theorem diagram_line_count (protocol : Protocol) (rendered : list str) :
  diagram_lines protocol = Ok rendered →
  generate_diagram protocol = Ok (join [NEWLINE] rendered)
  ∧ length rendered
    = ((match p_name protocol with Some _ => 2 | None => 0 end) + 2
       + sum_list ((λ b, match b with
                         | RowGroup g _ => if any_description g then 3 else 2
                         | WideBlock f _ => if has_description f then 3 else 2
                         end) <$> row_packer (p_fields protocol))
       + 1 + (match p_total_note protocol with Some _ => 2 | None => 0 end))%nat.
Proof.
  intros Hl. split; [unfold generate_diagram; by rewrite Hl|].
  rewrite diagram_lines_row_packer in Hl.
  destruct (render_blocks _) as [body|] eqn:Hb; simpl in Hl; [|done].
  simplify_eq. rewrite length_app. simpl. rewrite length_app. simpl.
  rewrite (render_blocks_lines _ _ Hb).
  change (λ b, match b with
               | RowGroup g _ => if any_description g then 3%nat else 2%nat
               | WideBlock f _ => if has_description f then 3%nat else 2%nat
               end) with block_lines.
  unfold title_lines, note_lines.
  destruct (p_name protocol), (p_total_note protocol); simpl; lia.
Qed.

(** A protocol with a name, a source and a total note whose three fields
    fill one row without descriptions: 2 + 2 + 2 + 1 + 2 = 9 lines. *)
Lemma diagram_line_count_witness :
  ∃ rendered,
    diagram_lines (mkProtocol (Some (of_ascii "Header")) (Some (of_ascii "RFC 1"))
                     (Some (of_ascii "Total: 4 bytes")) version_type_length)
    = Ok rendered
    ∧ length rendered = 9%nat.
Proof.
  eexists. split; [reflexivity|].
  exact (proj2 (diagram_line_count
                  (mkProtocol (Some (of_ascii "Header")) (Some (of_ascii "RFC 1"))
                     (Some (of_ascii "Total: 4 bytes")) version_type_length)
                  _ eq_refl)).
Defined.

(** ** When [generate_diagram] raises *)

Lemma render_blocks_result bs :
  Forall (λ b, match b with
               | RowGroup g _ => Forall (λ e, -1 ≤ entry_end e) g
               | WideBlock _ _ => True
               end) bs →
  if existsb block_raises bs then render_blocks bs = Raise IndexError
  else ∃ body, render_blocks bs = Ok body.
Proof.
  induction 1 as [|b bs Hb Hbs IH]; simpl; [by eexists|].
  assert (if block_raises b then render_block b = Raise IndexError
          else ∃ rendered, render_block b = Ok rendered) as Hr.
  { destruct b as [g fst|f fst]; simpl.
    - by apply _render_row_result.
    - apply _render_wide_field_result. }
  destruct (block_raises b); simpl; [by rewrite Hr|].
  destruct Hr as (rendered & ->). simpl.
  destruct (existsb block_raises bs); [by rewrite IH|].
  destruct IH as (rest & ->). by eexists.
Qed.

Lemma span_raises_short text s en :
  len text ≤ 133 → 0 ≤ s → s ≤ en → span_raises text s en = false.
Proof.
  intros Hlen Hs Hse. unfold span_raises.
  rewrite (bool_decide_eq_false_2 (_ < -65)); [by rewrite andb_false_r|].
  pose proof (left_pad_floor (span_width s en) text).
  unfold span_width, char_start, char_end in *. lia.
Qed.

Lemma block_fields_in fields b f :
  b ∈ row_packer fields → f ∈ block_fields b → f ∈ fields.
Proof.
  intros Hb Hf. rewrite <- (row_packer_block_fields fields).
  apply list_elem_of_join. exists (block_fields b).
  split; [done|]. by apply list_elem_of_fmap_2.
Qed.

Lemma row_packer_entries_ok fields b :
  Forall (λ f, 0 < f_bits f) fields → b ∈ row_packer fields →
  match b with
  | RowGroup g _ => Forall (λ e, 0 ≤ entry_start e ∧ entry_start e ≤ entry_end e
                                ∧ entry_end e ≤ 31) g
  | WideBlock _ _ => True
  end.
Proof.
  intros Hpos Hb. destruct b as [g fst|f fst]; [|done].
  apply group_ok_entries.
  pose proof (row_packer_groups_ok fields Hpos) as Hok.
  rewrite Forall_forall in Hok. apply Hok.
  unfold row_groups. apply list_elem_of_omap. by exists (RowGroup g fst).
Qed.

(** X9. For fields of positive width, [generate_diagram] raises IndexError
    exactly when one of the packer's blocks has an over-long text: a wide
    field with a name or description of 196 characters or more, or a row
    entry whose label or non-empty description starts left of index -65
    (char_start + (width - len(text)) // 2 < -65). *)
Theorem generate_diagram_raises_exactly (protocol : Protocol) :
  Forall (λ f, 0 < f_bits f) (p_fields protocol) →
  (generate_diagram protocol = Raise IndexError
   ↔ ∃ b, b ∈ row_packer (p_fields protocol) ∧ block_raises b = true).
Proof.
  intros Hpos. unfold generate_diagram. rewrite diagram_lines_row_packer.
  pose proof (render_blocks_result (row_packer (p_fields protocol))) as Hr.
  assert (Forall (λ b, match b with
                       | RowGroup g _ => Forall (λ e, -1 ≤ entry_end e) g
                       | WideBlock _ _ => True
                       end) (row_packer (p_fields protocol))) as Hok.
  { apply Forall_forall. intros b Hb.
    pose proof (row_packer_entries_ok _ b Hpos Hb) as He.
    destruct b as [g fst|f fst]; [|done].
    eapply Forall_impl; [exact He|]. simpl. intros e. lia. }
  specialize (Hr Hok).
  destruct (existsb block_raises (row_packer (p_fields protocol))) eqn:He.
  - rewrite Hr. simpl. split; [|done]. intros _.
    apply existsb_exists in He as (b & Hin & Hb).
    exists b. split; [by apply list_elem_of_In|done].
  - destruct Hr as (body & ->). simpl. split; [done|].
    intros (b & Hin & Hb). exfalso.
    assert (existsb block_raises (row_packer (p_fields protocol)) = true); [|congruence].
    apply existsb_exists. exists b. split; [by apply list_elem_of_In|done].
Qed.

Lemma generate_diagram_raises_exactly_witness :
  generate_diagram (mkProtocol None None None [mkField (replicate 140 65%N) 4 None])
  = Raise IndexError.
Proof.
  apply (generate_diagram_raises_exactly
           (mkProtocol None None None [mkField (replicate 140 65%N) 4 None])).
  - repeat constructor.
  - eexists. split; [left|]. vm_compute. reflexivity.
Defined.

(** X10. For fields of positive width whose names and descriptions have at
    most 133 characters, [generate_diagram] never raises: it returns a
    text, whatever the widths and the order of the fields. (133 is the
    largest such bound: a 1-bit field with a name of 134 characters
    raises.) *)
Theorem generate_diagram_returns (protocol : Protocol) :
  Forall (λ f, 0 < f_bits f ∧ len (f_name f) ≤ 133
               ∧ len (description_or_empty f) ≤ 133) (p_fields protocol) →
  ∃ text, generate_diagram protocol = Ok text.
Proof.
  intros Hall.
  assert (Forall (λ f, 0 < f_bits f) (p_fields protocol)) as Hpos.
  { eapply Forall_impl; [exact Hall|]. simpl. tauto. }
  rewrite Forall_forall in Hall.
  unfold generate_diagram. rewrite diagram_lines_row_packer.
  pose proof (render_blocks_result (row_packer (p_fields protocol))) as Hr.
  assert (existsb block_raises (row_packer (p_fields protocol)) = false) as Hno.
  { destruct (existsb block_raises _) eqn:He; [|done]. exfalso.
    apply existsb_exists in He as (b & Hin & Hb). apply list_elem_of_In in Hin.
    pose proof (row_packer_entries_ok _ b Hpos Hin) as Hent.
    destruct b as [g fst|f fst]; simpl in Hb.
    - apply existsb_exists in Hb as ([[f s] en] & Hein & Hre).
      apply list_elem_of_In in Hein.
      rewrite Forall_forall in Hent. destruct (Hent _ Hein) as (H0 & H1 & _).
      unfold entry_start, entry_end in *; simpl in *.
      destruct (Hall f) as (_ & Hn & Hd).
      { apply (block_fields_in _ (RowGroup g fst)); [done|]. simpl.
        by apply (list_elem_of_fmap_2 entry_field _ (f, s, en)). }
      unfold entry_raises, name_raises, desc_raises in Hre.
      rewrite !span_raises_short in Hre by done. done.
    - destruct (Hall f) as (_ & Hn & Hd).
      { apply (block_fields_in _ (WideBlock f fst)); [done|]. simpl. by left. }
      rewrite !bool_decide_eq_false_2 in Hb by lia. done. }
  rewrite Hno in Hr. destruct Hr as (body & ->); [|by eexists].
  apply Forall_forall. intros b Hb.
  pose proof (row_packer_entries_ok _ b Hpos Hb) as He.
  destruct b as [g fst|f fst]; [|done].
  eapply Forall_impl; [exact He|]. simpl. intros e. lia.
Qed.

(** The bound is tight. *)
Lemma name_of_134_characters_raises :
  generate_diagram (mkProtocol None None None [mkField (replicate 134 65%N) 1 None])
  = Raise IndexError.
Proof. vm_compute. reflexivity. Qed.

Lemma generate_diagram_returns_witness :
  ∃ text,
    generate_diagram (mkProtocol (Some (of_ascii "Header")) None None straddling_fields)
    = Ok text.
Proof.
  apply (generate_diagram_returns
           (mkProtocol (Some (of_ascii "Header")) None None straddling_fields)).
  repeat constructor; vm_compute; discriminate.
Defined.

(** * The lines of a rendered row *)

(** ** The separators of the label line and of the top border *)

(** Entries contiguous from bit [start] whose labels fit write nothing to
    the label line left of the column of that bit. *)
Lemma contiguous_labels_none g : ∀ start k,
  Forall (λ e, 0 < f_bits (entry_field e)) g → labels_fit g →
  contiguous_from start g → k < char_start start →
  Forall (λ e, name_writes e k = None) g.
Proof.
  induction g as [|[[f s] en] g IH]; intros start k Hp Hfit Hc Hk; [constructor|].
  inversion Hp as [|? ? Hf Hg]; subst. inversion Hfit as [|? ? Hn Hfit']; subst.
  destruct Hc as (-> & -> & Hc).
  unfold entry_field, entry_width, entry_start, entry_end in *; simpl in *.
  constructor.
  - destruct (name_writes _ k) eqn:Hw; [|done].
    apply name_writes_range in Hw; [lia|done].
  - apply (IH (start + f_bits f - 1 + 1)); try done. unfold char_start in *. lia.
Qed.

(** No later label reaches back to the separator of an earlier entry. *)
Lemma label_separator_kept g : ∀ start e,
  Forall (λ e, 0 < f_bits (entry_field e)) g → labels_fit g →
  contiguous_from start g → e ∈ g → entry_end e < 31 →
  last_written name_writes g (char_end (entry_end e)) = Some BOX_V.
Proof.
  induction g as [|[[f s] en] g IH]; intros start e Hp Hfit Hc Hin He.
  - by apply elem_of_nil in Hin.
  - inversion Hp as [|? ? Hf Hg]; subst. inversion Hfit as [|? ? _ Hfit']; subst.
    destruct Hc as (-> & -> & Hc). simpl.
    apply elem_of_cons in Hin as [->|Hin].
    + unfold entry_end in *; simpl in *.
      rewrite (last_written_none name_writes g).
      * by rewrite bool_decide_eq_true_2.
      * apply (contiguous_labels_none g (start + f_bits f - 1 + 1)); try done.
        unfold char_start, char_end. lia.
    + by rewrite (IH _ e Hg Hfit' Hc Hin He).
Qed.

(** The label line of a well-formed row whose labels fit, whatever the
    descriptions. *)
Lemma label_line_fits g :
  group_ok g → labels_fit g →
  ∃ name,
    for_in g name_entry blank_line = Ok name
    ∧ length name = 65%nat
    ∧ ∀ k : nat, name !! k = match last_written name_writes g (Z.of_nat k) with
                             | Some c => Some c
                             | None => blank_line !! k
                             end.
Proof.
  intros Hok Hfit. pose proof (group_ok_entries g Hok) as Hb.
  apply (for_in_last_written name_entry name_writes
           (λ e, (0 ≤ entry_start e ∧ entry_start e ≤ entry_end e + 1
                  ∧ entry_end e ≤ 31)
                 ∧ len (f_name (entry_field e)) ≤ entry_width e)); [| |done].
  - intros [[f s] en] line ((H0 & H1 & H2) & H3) Hl. by apply name_entry_fits.
  - apply Forall_and. split; [|exact Hfit].
    eapply Forall_impl; [exact Hb|]. simpl. intros e. lia.
Qed.

(** What [_render_row] returns once its label line is built: it raises
    exactly when the description of some entry raises. *)
Lemma _render_row_after_labels g is_first name :
  Forall (λ e, -1 ≤ entry_end e) g →
  for_in g name_entry blank_line = Ok name →
  if existsb desc_raises g then _render_row g is_first = Raise IndexError
  else ∃ rest, _render_row g is_first = Ok (row_border g is_first :: name :: rest)
               ∧ length rest = if any_description g then 1%nat else 0%nat.
Proof.
  intros Hg Hn. unfold _render_row. rewrite Hn. simpl.
  pose proof (for_in_result desc_entry desc_raises (λ e, -1 ≤ entry_end e)) as Hd.
  specialize (Hd ltac:(intros [[f s] en] line He Hl; by apply desc_entry_result)
                g blank_line Hg eq_refl).
  destruct (existsb desc_raises g) eqn:Hraise.
  - assert (any_description g = true) as ->.
    { apply existsb_exists in Hraise as ([[f s] en] & Hin & Hr).
      apply existsb_exists. exists (f, s, en). split; [done|].
      unfold desc_raises, span_raises in Hr. apply andb_true_iff in Hr as [Ht _].
      by rewrite <- truthy_description. }
    by rewrite Hd.
  - destruct (any_description g); [|by exists []].
    destruct Hd as (desc & -> & _). by exists [desc].
Qed.

(** C5, amended. For every well-formed row whose labels fit their spans,
    however long the descriptions are, the label line is built, and
    [_render_row] returns the top border, that label line and at most a
    description line, unless the description of some entry raises. The
    label line has a vertical separator in the column right after the span
    of every field whose end bit is below 31 (column end * 2 + 2): after
    every field except the last of the row, and also after the last one when
    the row is not full. Every other interior column of the label line shows
    the centered labels: a character of a label or a space. The top border
    has a junction for every field except the last of the row, in column
    end * 2 + 3, and a horizontal bar in every other interior column. The
    rows are the well-formed groups, which by [row_packer_groups_ok] include
    every group the packer emits for fields of positive width. *)
Theorem row_separators (g : list row_entry) (is_first : bool) :
  group_ok g → labels_fit g →
  ∃ name,
    for_in g name_entry blank_line = Ok name
    ∧ (if existsb desc_raises g then _render_row g is_first = Raise IndexError
       else ∃ rest,
              _render_row g is_first = Ok (row_border g is_first :: name :: rest)
              ∧ length rest = if any_description g then 1%nat else 0%nat)
    ∧ (∀ e, e ∈ g → entry_end e < 31 →
         name !! Z.to_nat (char_end (entry_end e)) = Some BOX_V)
    ∧ (∀ e, e ∈ removelast g →
         name !! Z.to_nat (char_end (entry_end e)) = Some BOX_V)
    ∧ (∀ k, 1 ≤ k ≤ 63 →
         (∀ e, e ∈ g → entry_end e < 31 → k ≠ char_end (entry_end e)) →
         name !! Z.to_nat k = Some (default SPACE (last_written label_writes g k)))
    ∧ (∀ e, e ∈ removelast g →
         row_border g is_first !! Z.to_nat (entry_end e * 2 + 3) = Some BOX_DH)
    ∧ (∀ k, 1 ≤ k ≤ 63 →
         (∀ e, e ∈ removelast g → k ≠ entry_end e * 2 + 3) →
         row_border g is_first !! Z.to_nat k = Some BOX_H).
Proof.
  intros Hok Hfit.
  destruct (label_line_fits g Hok Hfit) as (name & Hrun & Hlen & Hn).
  exists name. split; [exact Hrun|].
  pose proof (group_ok_entries g Hok) as Hb.
  split.
  { apply _render_row_after_labels; [|exact Hrun].
    eapply Forall_impl; [exact Hb|]. simpl. intros e. lia. }
  rewrite Forall_forall in Hb.
  destruct Hok as (Hne & Hp & start & H0 & Hc & Hs).
  assert (∀ e, e ∈ g → entry_end e < 31 →
            name !! Z.to_nat (char_end (entry_end e)) = Some BOX_V) as Hsep.
  { intros e He Hlt. destruct (Hb e He) as (Hs0 & Hse & _). rewrite Hn.
    rewrite Z2Nat.id by (unfold char_end; lia).
    by rewrite (label_separator_kept g start e). }
  split; [exact Hsep|]. split; [|split; [|split]].
  - intros e He. destruct (removelast_end g start e Hp Hc Hs He) as (Hin & Hlo & Hhi).
    by apply Hsep.
  - intros k Hk Hnot. rewrite Hn, Z2Nat.id by lia.
    rewrite name_writes_labels by done.
    destruct (last_written label_writes g k); [done|].
    rewrite blank_line_lookup by lia. done.
  - intros e He. destruct (removelast_end g start e Hp Hc Hs He) as (Hin & Hlo & Hhi).
    rewrite row_border_lookup by lia.
    replace (entry_end e * 2 + 3 - 1) with (entry_end e * 2 + 2) by lia.
    rewrite (proj2 (is_boundary_spec g _)); [done|]. by exists e.
  - intros k Hk Hnb. rewrite row_border_lookup by done.
    destruct (is_boundary g (k - 1)) eqn:Hib; [|done].
    apply is_boundary_spec in Hib as (e & He & Hke).
    exfalso. apply (Hnb e He). lia.
Qed.

(** C5 at a row that is not full and in which a description is longer than
    its span: two 4-bit fields, the first described by the 14 characters of
    "operation code". The labels fit, the row is rendered with a description
    line, and the label line has its separators in columns 8 and 16, the
    second one after the last field of the row; the border has its only
    junction in column 9. *)
Lemma row_separators_witness :
  let op := mkField (of_ascii "Op") 4 (Some (of_ascii "operation code")) in
  let size := mkField (of_ascii "Len") 4 (Some (of_ascii "n")) in
  let g := [(op, 0, 3); (size, 4, 7)] in
  ¬ texts_fit g
  ∧ ∃ name desc,
      _render_row g true = Ok [row_border g true; name; desc]
      ∧ name !! 8%nat = Some BOX_V ∧ name !! 16%nat = Some BOX_V
      ∧ row_border g true !! 9%nat = Some BOX_DH
      ∧ row_border g true !! 17%nat = Some BOX_H.
Proof.
  intros op size g. split.
  { intros Hfit. inversion Hfit as [|? ? [_ Hd] _]; subst.
    vm_compute in Hd. by apply Hd. }
  destruct (row_separators g true) as (name & _ & Hr & Hsep & _ & _ & Hj & Hb).
  - split; [done|]. split; [repeat constructor|].
    exists 0. repeat split; vm_compute; discriminate.
  - repeat constructor; vm_compute; discriminate.
  - change (existsb desc_raises g) with false in Hr. cbv iota in Hr.
    destruct Hr as (rest & Hr & Hlen).
    change (any_description g) with true in Hlen. cbv iota in Hlen.
    destruct rest as [|desc [|? ?]]; [discriminate Hlen| |discriminate Hlen].
    exists name, desc. split; [exact Hr|].
    split; [apply (Hsep (op, 0, 3)); [left|reflexivity]|].
    split; [apply (Hsep (size, 4, 7)); [right; left|reflexivity]|].
    split; [apply (Hj (op, 0, 3)); left|].
    apply (Hb 17); [lia|].
    intros e He. apply list_elem_of_singleton in He. subst e. vm_compute. discriminate.
Defined.

(** ** Where a centered text is written *)

(** A guarded write loop that does not raise: every index below zero passes
    the guard and wraps around to the end of the line. *)
Lemma for_enumerate_overlay (guard : Z → bool) (n : nat) (base : Z) (text : str) :
  (∀ pos, guard pos = true → pos < Z.of_nat n) →
  (∀ pos, pos < 0 → guard pos = true) →
  ∀ (i : Z) (line : str), length line = n → - Z.of_nat n ≤ base + i →
  ∃ line',
    for_enumerate i text
      (λ i ch line, if guard (base + i) then setitem line (base + i) ch else Ok line)
      line = Ok line'
    ∧ length line' = n
    ∧ ∀ k : nat, (k < n)%nat →
        line' !! k =
        if bool_decide (base + i ≤ Z.of_nat k < base + i + len text) && guard (Z.of_nat k)
        then text !! Z.to_nat (Z.of_nat k - (base + i))
        else if bool_decide (base + i ≤ Z.of_nat k - Z.of_nat n < base + i + len text)
        then text !! Z.to_nat (Z.of_nat k - Z.of_nat n - (base + i))
        else line !! k.
Proof.
  intros Hhi Hneg. induction text as [|ch text IH]; intros i line Hl Hlo.
  - exists line. split; [done|]. split; [done|]. intros k Hk.
    unfold len; simpl length.
    rewrite (bool_decide_eq_false_2 (base + i ≤ Z.of_nat k < _)) by lia.
    rewrite andb_false_l. rewrite bool_decide_eq_false_2 by lia. done.
  - set (p := base + i) in *.
    assert (∃ line1,
              (if guard p then setitem line p ch else Ok line) = Ok line1
              ∧ length line1 = n
              ∧ ∀ k : nat, (k < n)%nat →
                  line1 !! k =
                  if guard p && (bool_decide (Z.of_nat k = p)
                                 || bool_decide (Z.of_nat k = p + Z.of_nat n))
                  then Some ch else line !! k)
      as (line1 & Hb & Hl1 & Hlook1).
    { destruct (guard p) eqn:Hg.
      - specialize (Hhi _ Hg). unfold setitem, len. rewrite Hl.
        destruct (decide (0 ≤ p)) as [Hp|Hp].
        + rewrite bool_decide_eq_true_2 by lia.
          eexists. split; [done|]. split; [by rewrite length_insert|].
          intros k Hk. rewrite andb_true_l.
          rewrite (bool_decide_eq_false_2 (Z.of_nat k = p + _)) by lia.
          rewrite orb_false_r. case_bool_decide as Hkp.
          * replace (Z.to_nat p) with k by lia. apply list_lookup_insert_eq. lia.
          * by rewrite list_lookup_insert_ne by lia.
        + rewrite bool_decide_eq_false_2 by lia. rewrite bool_decide_eq_true_2 by lia.
          eexists. split; [done|]. split; [by rewrite length_insert|].
          intros k Hk. rewrite andb_true_l.
          rewrite (bool_decide_eq_false_2 (Z.of_nat k = p)) by lia.
          rewrite orb_false_l. case_bool_decide as Hkp.
          * replace (Z.to_nat (p + Z.of_nat n)) with k by lia.
            apply list_lookup_insert_eq. lia.
          * by rewrite list_lookup_insert_ne by lia.
      - exists line. split; [done|]. split; [done|]. intros k Hk. done. }
    simpl. fold p. rewrite Hb. simpl.
    destruct (IH (i + 1) line1 Hl1 ltac:(lia)) as (line' & Hrun & Hl' & Hlook).
    exists line'. split; [exact Hrun|]. split; [done|]. intros k Hk.
    rewrite (Hlook k Hk), (Hlook1 k Hk).
    replace (base + (i + 1)) with (p + 1) by lia.
    unfold len; simpl length. rewrite Nat2Z.inj_succ.
    destruct (decide (Z.of_nat k = p)) as [Hkp|Hkp].
    + rewrite (bool_decide_eq_false_2 (p + 1 ≤ Z.of_nat k < _)) by lia.
      rewrite andb_false_l.
      rewrite (bool_decide_eq_false_2 (p + 1 ≤ Z.of_nat k - _ < _)) by lia.
      rewrite (bool_decide_eq_true_2 (Z.of_nat k = p)) by done. rewrite orb_true_l.
      rewrite (bool_decide_eq_true_2 (p ≤ Z.of_nat k < _)) by lia. rewrite andb_true_l.
      rewrite Hkp, andb_true_r. destruct (guard p); [by rewrite Z.sub_diag|].
      rewrite bool_decide_eq_false_2 by lia. done.
    + rewrite (bool_decide_eq_false_2 (Z.of_nat k = p)) by done. rewrite orb_false_l.
      assert (bool_decide (p + 1 ≤ Z.of_nat k < p + 1 + Z.of_nat (length text))
              = bool_decide (p ≤ Z.of_nat k < p + Z.succ (Z.of_nat (length text))))
        as ->.
      { apply bool_decide_ext. lia. }
      destruct (bool_decide (p ≤ Z.of_nat k < _) && guard (Z.of_nat k)) eqn:Hc.
      { apply andb_true_iff in Hc as [Hin _]. apply bool_decide_eq_true_1 in Hin.
        replace (Z.to_nat (Z.of_nat k - p))
          with (S (Z.to_nat (Z.of_nat k - (p + 1)))) by lia. done. }
      destruct (decide (Z.of_nat k = p + Z.of_nat n)) as [Hkn|Hkn].
      * rewrite (bool_decide_eq_true_2 _ Hkn), andb_true_r.
        rewrite (Hneg p) by lia.
        rewrite (bool_decide_eq_false_2 (p + 1 ≤ Z.of_nat k - _ < _)) by lia.
        rewrite bool_decide_eq_true_2 by lia.
        by replace (Z.of_nat k - Z.of_nat n - p) with 0 by lia.
      * rewrite (bool_decide_eq_false_2 _ Hkn), andb_false_r. clear Hc.
        case_bool_decide as Hw.
        -- rewrite bool_decide_eq_true_2 by lia.
           replace (Z.to_nat (Z.of_nat k - Z.of_nat n - p))
             with (S (Z.to_nat (Z.of_nat k - Z.of_nat n - (p + 1)))) by lia. done.
        -- rewrite bool_decide_eq_false_2 by lia. done.
Qed.

(** The write loop of [_render_row], for a text whose first index is not
    below -65. *)
Lemma write_span_laid_over text start end_ line :
  length line = 65%nat → -1 ≤ end_ →
  -65 ≤ char_start start + left_pad (span_width start end_) text →
  ∃ line',
    write_span text start end_ line = Ok line'
    ∧ length line' = 65%nat
    ∧ ∀ k : nat, (k < 65)%nat →
        line' !! k
        = laid_over text (char_start start + left_pad (span_width start end_) text)
            (char_end end_ `min` 64) line k.
Proof.
  intros Hl Hen Hlo. unfold write_span.
  destruct (for_enumerate_overlay
              (λ pos, bool_decide (pos < char_end end_) && bool_decide (pos < 64))
              65 (char_start start + left_pad (span_width start end_) text) text)
    with (i := 0) (line := line) as (line' & Hrun & Hl' & Hlook).
  - intros pos Hg. apply andb_true_iff in Hg as [_ Hg].
    apply bool_decide_eq_true_1 in Hg. lia.
  - intros pos Hneg. rewrite !bool_decide_eq_true_2; [done| |]; unfold char_end; lia.
  - done.
  - lia.
  - exists line'. split; [exact Hrun|]. split; [done|]. intros k Hk.
    rewrite (Hlook k Hk). unfold laid_over. rewrite Z.add_0_r.
    change (Z.of_nat 65) with 65.
    rewrite <- !bool_decide_and.
    set (origin := char_start start + left_pad (span_width start end_) text).
    rewrite (bool_decide_ext
               (origin ≤ Z.of_nat k < origin + len text
                ∧ Z.of_nat k < char_end end_ ∧ Z.of_nat k < 64)
               (origin ≤ Z.of_nat k < origin + len text
                ∧ Z.of_nat k < char_end end_ `min` 64)) by lia.
    done.
Qed.

(** The write loop of [_render_wide_field]. *)
Lemma write_wide_laid_over text line :
  length line = 65%nat → -65 ≤ 1 + left_pad 63 text →
  ∃ line',
    write_wide text line = Ok line'
    ∧ length line' = 65%nat
    ∧ ∀ k : nat, (k < 65)%nat →
        line' !! k = laid_over text (1 + left_pad 63 text) 64 line k.
Proof.
  intros Hl Hlo. unfold write_wide.
  rewrite (for_enumerate_ext _
             (λ i ch line,
                if (λ pos, bool_decide (pos < 64)) (1 + left_pad 63 text + i)
                then setitem line (1 + left_pad 63 text + i) ch else Ok line)).
  2:{ intros i x l. cbv beta. by replace (left_pad 63 text + i + 1)
        with (1 + left_pad 63 text + i) by lia. }
  destruct (for_enumerate_overlay (λ pos, bool_decide (pos < 64)) 65
              (1 + left_pad 63 text) text)
    with (i := 0) (line := line) as (line' & Hrun & Hl' & Hlook).
  - intros pos Hg. apply bool_decide_eq_true_1 in Hg. lia.
  - intros pos Hneg. apply bool_decide_eq_true_2. lia.
  - done.
  - lia.
  - exists line'. split; [exact Hrun|]. split; [done|]. intros k Hk.
    rewrite (Hlook k Hk). unfold laid_over. rewrite Z.add_0_r.
    change (Z.of_nat 65) with 65.
    by rewrite <- !bool_decide_and.
Qed.

(** C7, as stated, fails. The eight characters of "Checksum" in the span of
    the bits 4 .. 7 (7 columns, so a leftover of -1) are written from column
    8 on: one column left of the span, where the floor of -1/2 puts them,
    over the separator of the field before. The truncating quotient of -1
    by 2 is 0 and would put the first character in column 9, which holds
    the second one. *)
Lemma overlong_label_left_of_truncation :
  let kind := mkField (of_ascii "Kind") 4 None in
  let sum := mkField (of_ascii "Checksum") 4 None in
  let pad := span_width 4 7 - len (of_ascii "Checksum") in
  pad = -1 ∧ pad `quot` 2 = 0 ∧ pad `div` 2 = -1
  ∧ ∃ border name,
      _render_row [(kind, 0, 3); (sum, 4, 7)] true = Ok [border; name]
      ∧ name = [BOX_V] ++ of_ascii " Kind  " ++ of_ascii "Checksum" ++ [BOX_V]
               ++ replicate 47 SPACE ++ [BOX_V]
      ∧ name !! Z.to_nat (char_start 4 + pad `div` 2) = Some 67%N
      ∧ name !! Z.to_nat (char_start 4 + pad `quot` 2) = Some 104%N
      ∧ name !! Z.to_nat (char_start 4 + pad `quot` 2) ≠ Some 67%N.
Proof.
  intros kind sum pad. repeat split; try reflexivity.
  eexists _, _. split; [vm_compute; reflexivity|].
  repeat split; try reflexivity. vm_compute. discriminate.
Qed.

(** C7, amended. The write loops of the two renderers put character [i] of
    a label or description at index origin + i of the line, where origin is
    the first column of the span plus the floor of half the leftover:
    char_start + (span_width - len) // 2 in a normal row,
    1 + (63 - len) // 2 in a wide block. The character is written when its
    index is below the end of the span and below 64; an index below zero
    counts from the end of the 65-character line, and the loop returns
    whenever origin is not below -65. For a text no longer than its span
    the floor is the truncating quotient: that many columns of the span stay
    free left of the text, and as many right of it when the leftover is
    even, one more when it is odd. For a text longer than its span by an odd
    number of characters the floor is one less than the truncating
    quotient, and the text starts one column further left. *)
Theorem centered_text_columns (text line : str) :
  length line = 65%nat →
  (∀ start end_,
     let pad := span_width start end_ - len text in
     let origin := char_start start + pad `div` 2 in
     (-1 ≤ end_ → -65 ≤ origin →
        ∃ line',
          write_span text start end_ line = Ok line'
          ∧ ∀ k : nat, (k < 65)%nat →
              line' !! k = laid_over text origin (char_end end_ `min` 64) line k)
     ∧ (0 ≤ pad →
          origin - char_start start = pad `quot` 2
          ∧ char_end end_ - (origin + len text) = pad `quot` 2 + pad `mod` 2)
     ∧ (pad < 0 → pad `mod` 2 = 1 → origin - char_start start = pad `quot` 2 - 1))
  ∧ (let pad := 63 - len text in
     let origin := 1 + pad `div` 2 in
     (-65 ≤ origin →
        ∃ line',
          write_wide text line = Ok line'
          ∧ ∀ k : nat, (k < 65)%nat → line' !! k = laid_over text origin 64 line k)
     ∧ (0 ≤ pad →
          origin - 1 = pad `quot` 2
          ∧ 64 - (origin + len text) = pad `quot` 2 + pad `mod` 2)
     ∧ (pad < 0 → pad `mod` 2 = 1 → origin - 1 = pad `quot` 2 - 1)).
Proof.
  intros Hl. split.
  - intros start end_ pad origin.
    destruct (left_pad_centering (span_width start end_) text) as (_ & _ & Hfit & Hlong).
    fold pad in Hfit, Hlong. unfold right_pad, left_pad in Hfit, Hlong.
    fold pad in Hfit, Hlong.
    split; [|split].
    + intros Hen Hlo.
      destruct (write_span_laid_over text start end_ line Hl Hen Hlo)
        as (line' & Hrun & _ & Hlook).
      by exists line'.
    + intros Hpad. destruct (Hfit Hpad) as (Hq & _ & Hr).
      subst origin pad. unfold span_width in *. lia.
    + intros Hpad Hodd. specialize (Hlong Hpad Hodd). subst origin. lia.
  - intros pad origin.
    destruct (left_pad_centering 63 text) as (_ & _ & Hfit & Hlong).
    fold pad in Hfit, Hlong. unfold right_pad, left_pad in Hfit, Hlong.
    fold pad in Hfit, Hlong.
    split; [|split].
    + intros Hlo.
      destruct (write_wide_laid_over text line Hl Hlo) as (line' & Hrun & _ & Hlook).
      by exists line'.
    + intros Hpad. destruct (Hfit Hpad) as (Hq & _ & Hr).
      subst origin pad. lia.
    + intros Hpad Hodd. specialize (Hlong Hpad Hodd). subst origin. lia.
Qed.

(** C7 at the label "Checksum" on the bits 4 .. 7 of a blank line, and at
    the label "Options" of a wide block. *)
Lemma centered_text_columns_witness :
  (∃ line',
     write_span (of_ascii "Checksum") 4 7 blank_line = Ok line'
     ∧ line' !! 8%nat = Some 67%N ∧ line' !! 15%nat = Some 109%N
     ∧ line' !! 16%nat = Some SPACE)
  ∧ (∃ line',
       write_wide (of_ascii "Options") blank_line = Ok line'
       ∧ line' !! 28%nat = Some SPACE ∧ line' !! 29%nat = Some 79%N
       ∧ line' !! 35%nat = Some 115%N ∧ line' !! 36%nat = Some SPACE).
Proof.
  split.
  - pose proof (proj1 (centered_text_columns (of_ascii "Checksum") blank_line eq_refl)
                  4 7) as (Hwrite & _).
    destruct Hwrite as (line' & Hr & Hlook); [vm_compute; discriminate..|].
    exists line'. split; [exact Hr|].
    split; [|split]; (rewrite Hlook; [reflexivity|lia]).
  - pose proof (proj2 (centered_text_columns (of_ascii "Options") blank_line eq_refl))
      as (Hwrite & _).
    destruct Hwrite as (line' & Hr & Hlook); [vm_compute; discriminate|].
    exists line'. split; [exact Hr|].
    split; [|split; [|split]]; (rewrite Hlook; [reflexivity|lia]).
Defined.

(** ** The separators of the description line *)

(** A loop that returns has run its body on every element: on element [i]
    after the elements before it, and before those after it. *)
Lemma for_in_at {A St} (body : A → St → result St) (xs : list A) :
  ∀ (i : nat) (x : A) (s final : St),
  xs !! i = Some x → for_in xs body s = Ok final →
  ∃ before after,
    for_in (take i xs) body s = Ok before
    ∧ body x before = Ok after
    ∧ for_in (drop (S i) xs) body after = Ok final.
Proof.
  induction xs as [|y xs IH]; intros i x s final Hi Hrun; [done|].
  simpl in Hrun. destruct (body y s) as [s1|] eqn:Hb; simpl in Hrun; [|done].
  destruct i as [|i]; simpl in Hi.
  - simplify_eq. exists s, s1. done.
  - destruct (IH i x s1 final Hi Hrun) as (before & after & H1 & H2 & H3).
    exists before, after. simpl. rewrite Hb. simpl. done.
Qed.

(** Whatever the label, the body of the name loop leaves a separator in
    column end * 2 + 2 of the line it returns. *)
Lemma name_entry_writes_separator f s en line line' :
  length line = 65%nat → -1 ≤ en < 31 →
  name_entry (f, s, en) line = Ok line' →
  line' !! Z.to_nat (char_end en) = Some BOX_V.
Proof.
  intros Hl Hen. unfold name_entry.
  destruct (write_span _ _ _ _) as [line1|] eqn:Hw; simpl; [|done].
  apply write_span_length in Hw.
  rewrite !bool_decide_eq_true_2 by (unfold char_end; lia). simpl.
  rewrite setitem_in_range by (unfold len, char_end; lia).
  intros ?; simplify_eq. apply list_lookup_insert_eq. unfold char_end. lia.
Qed.

(** C9. A row whose entries end at bit -1 or later is rendered unless one
    of its texts raises. When no field of the row has a description the row
    has no description line. When some field has one, the description line
    is the result of the description loop, and for every field of the row
    whose end bit is below 31, with or without a description of its own,
    the body of that loop, run for the field on the line left by the fields
    before it, returns a line with a vertical separator in column
    end * 2 + 3; the loop goes on from that line. The name loop does the
    same at column end * 2 + 2, one column to the left. *)
Theorem description_separator_written (g : list row_entry) (is_first : bool) :
  Forall (λ e, -1 ≤ entry_end e) g →
  if existsb entry_raises g then _render_row g is_first = Raise IndexError
  else if any_description g then
    ∃ name desc,
      _render_row g is_first = Ok [row_border g is_first; name; desc]
      ∧ ∀ i f s en, g !! i = Some (f, s, en) → en < 31 →
          (∃ before after,
             for_in (take i g) desc_entry blank_line = Ok before
             ∧ desc_entry (f, s, en) before = Ok after
             ∧ after !! Z.to_nat (en * 2 + 3) = Some BOX_V
             ∧ for_in (drop (S i) g) desc_entry after = Ok desc)
          ∧ (∃ before after,
               for_in (take i g) name_entry blank_line = Ok before
               ∧ name_entry (f, s, en) before = Ok after
               ∧ after !! Z.to_nat (en * 2 + 2) = Some BOX_V
               ∧ for_in (drop (S i) g) name_entry after = Ok name)
  else ∃ name, _render_row g is_first = Ok [row_border g is_first; name].
Proof.
  intros Hg. pose proof (_render_row_result g is_first Hg) as Hr.
  destruct (existsb entry_raises g); [done|]. destruct Hr as [rendered Hr].
  unfold _render_row in Hr |- *.
  destruct (for_in g name_entry blank_line) as [name|] eqn:Hn; simpl in *; [|done].
  destruct (any_description g); [|by exists name].
  destruct (for_in g desc_entry blank_line) as [desc|] eqn:Hd; simpl in *; [|done].
  exists name, desc. split; [done|]. intros i f s en Hi Hen.
  assert (-1 ≤ en) as Hlo by exact (Forall_lookup_1 _ _ _ _ Hg Hi).
  split.
  - destruct (for_in_at desc_entry g i (f, s, en) blank_line desc Hi Hd)
      as (before & after & Hb & He & Ha).
    exists before, after. repeat split; try done.
    apply (desc_entry_writes_separator f s en before after); [|lia|done].
    revert Hb. apply (for_in_preserves (λ l, length l = 65%nat)); [|done].
    intros x l l' Hl Hx. apply desc_entry_length in Hx. congruence.
  - destruct (for_in_at name_entry g i (f, s, en) blank_line name Hi Hn)
      as (before & after & Hb & He & Ha).
    exists before, after. repeat split; try done.
    change (en * 2 + 2) with (char_end en).
    apply (name_entry_writes_separator f s en before after); [|lia|done].
    revert Hb. apply (for_in_preserves (λ l, length l = 65%nat)); [|done].
    intros x l l' Hl Hx. apply name_entry_length in Hx. congruence.
Qed.

(** C9 at a row of two 4-bit fields of which only the second has a
    description: the body of the description loop, run for the first field
    on the blank line, writes the separator in column 3 * 2 + 3 = 9. *)
Lemma description_separator_written_witness :
  let kind := mkField (of_ascii "Kind") 4 None in
  let code := mkField (of_ascii "Code") 4 (Some (of_ascii "abcd")) in
  let g := [(kind, 0, 3); (code, 4, 7)] in
  ∃ name desc after,
    _render_row g true = Ok [row_border g true; name; desc]
    ∧ desc_entry (kind, 0, 3) blank_line = Ok after
    ∧ after !! 9%nat = Some BOX_V
    ∧ for_in [(code, 4, 7)] desc_entry after = Ok desc.
Proof.
  intros kind code g.
  pose proof (description_separator_written g true) as Hw.
  change (existsb entry_raises g) with false in Hw.
  change (any_description g) with true in Hw. cbv iota in Hw.
  destruct Hw as (name & desc & Hr & Htrace).
  { repeat constructor; vm_compute; discriminate. }
  destruct (Htrace 0%nat kind 0 3 eq_refl) as ((before & after & Hb & He & Hsep & Ha) & _).
  { reflexivity. }
  exists name, desc, after.
  assert (before = blank_line) as -> by (simpl in Hb; congruence).
  split; [exact Hr|]. split; [exact He|]. split; [exact Hsep|exact Ha].
Defined.

(** ** The finished description line *)

(** X11. In a rendered well-formed row whose labels and descriptions fit
    their spans and in which some field has a description, the finished
    name line has a separator in column end * 2 + 2 after every field whose
    end bit is below 31. In the finished description line column
    end * 2 + 3, which is the first column of the span of the next field,
    holds the separator when the field is the last of its row, when the
    next field has no description, or when that description is centered
    with a left padding above zero; when the left padding is zero the
    column holds the first character of the next field's description,
    which was written over the separator. *)
Theorem description_line_separators (g : list row_entry) (is_first : bool) :
  group_ok g → texts_fit g → any_description g = true →
  ∃ name desc,
    _render_row g is_first = Ok [row_border g is_first; name; desc]
    ∧ ∀ i e, g !! i = Some e → entry_end e < 31 →
        name !! Z.to_nat (entry_end e * 2 + 2) = Some BOX_V
        ∧ desc !! Z.to_nat (entry_end e * 2 + 3)
          = match g !! S i with
            | Some e' =>
                let text := description_or_empty (entry_field e') in
                if bool_decide (0 < (entry_width e' - len text) `div` 2)
                then Some BOX_V
                else match text with [] => Some BOX_V | c :: _ => Some c end
            | None => Some BOX_V
            end.
Proof.
  intros Hok Hfit Hany.
  destruct (_render_row_fits g is_first Hok Hfit) as (name & desc & Hr & Hn & Hd).
  rewrite Hany in Hr. exists name, desc. split; [exact Hr|].
  pose proof (group_ok_entries g Hok) as Hb. rewrite Forall_forall in Hb.
  destruct Hok as (Hne & Hp & start & H0 & Hc & Hs).
  intros i e Hi He.
  assert (e ∈ g) as Hin by (by eapply list_elem_of_lookup_2).
  destruct (Hb e Hin) as (Hs0 & Hse & _).
  split.
  - change (entry_end e * 2 + 2) with (char_end (entry_end e)).
    rewrite Hn, Z2Nat.id by (unfold char_end; lia).
    by rewrite (name_separator_kept g start e).
  - rewrite Hd, Z2Nat.id by lia.
    rewrite (desc_separator_column g start i e) by done.
    destruct (g !! S i) as [e'|]; [|done]. cbv zeta. unfold left_pad.
    case_bool_decide; [done|]. by destruct (description_or_empty _).
Qed.

(** X11 at a row of three fields: the description "abcdef" of the second
    one fills its span from the first column on and stands over the
    separator of column 9; the separator of column 17 after the second
    field is in the finished line. *)
Lemma description_line_separators_witness :
  let kind := mkField (of_ascii "Kind") 4 None in
  let code := mkField (of_ascii "Code") 4 (Some (of_ascii "abcdef")) in
  let sum := mkField (of_ascii "Checksum") 24 None in
  let g := [(kind, 0, 3); (code, 4, 7); (sum, 8, 31)] in
  ∃ name desc,
    _render_row g true = Ok [row_border g true; name; desc]
    ∧ name !! 8%nat = Some BOX_V ∧ desc !! 9%nat = Some 97%N
    ∧ name !! 16%nat = Some BOX_V ∧ desc !! 17%nat = Some BOX_V.
Proof.
  intros kind code sum g.
  destruct (description_line_separators g true) as (name & desc & Hr & Hsep).
  - split; [done|]. split; [repeat constructor|].
    exists 0. repeat split; vm_compute; discriminate.
  - repeat constructor; vm_compute; discriminate.
  - reflexivity.
  - exists name, desc. split; [exact Hr|].
    destruct (Hsep 0%nat (kind, 0, 3) eq_refl) as [Hn0 Hd0]; [reflexivity|].
    destruct (Hsep 1%nat (code, 4, 7) eq_refl) as [Hn1 Hd1]; [reflexivity|].
    repeat split; [exact Hn0 | exact Hd0 | exact Hn1 | exact Hd1].
Defined.
